(** * yegonesh: a dmenu launcher that ranks commands by usage

    A shallow embedding of [main.go] and the properties of its discovery,
    merge and history components.

    Conventions of the embedding:
    - a Go [string] is a Rocq [string] (a sequence of 8-bit bytes);
    - a [uint64] is a [Z] in the range [0, 2^64), arithmetic wraps;
    - a receive-only channel that its producer closes after finitely many
      sends is the [list] of the values sent, in sending order;
    - a [*Command] is an address into an explicit heap, a [Commands] slice
      is a list of addresses, so that in-place updates are visible to
      every holder of the slice;
    - a Go panic is the [Panic] constructor of [Result]. *)

From Stdlib Require Import ZArith Lia Ascii.
From Stdlib Require String.
From stdpp Require Import base decidable option list sorting gmap strings fin_maps.

Local Open Scope string_scope.
Local Open Scope list_scope.

(** ** Bytes and strings *)

Definition byte_of (n : nat) : ascii := Ascii.ascii_of_nat n.
Definition bytes (l : list nat) : string :=
  String.string_of_list_ascii (byte_of <$> l).

Definition TAB : ascii := "009"%char.
Definition LF : ascii := "010"%char.
Definition CR : ascii := "013"%char.
Definition SP : ascii := " "%char.
Definition tab : string := String TAB "".
Definition nl : string := String LF "".

(** [strip_prefix tok s] is [Some r] when [s = tok ++ r]. *)
Fixpoint strip_prefix (tok s : string) : option string :=
  match tok, s with
  | EmptyString, _ => Some s
  | String a tok', String b s' =>
      if Ascii.eqb a b then strip_prefix tok' s' else None
  | String _ _, EmptyString => None
  end.

(** ** The Go library functions that [main.go] calls

    Each is modelled from the documented behaviour of the Go standard
    library, on byte strings. *)

Module strings.

(** [strings.Split(s, sep)] for a separator of one byte: the pieces between
    the separators; never empty, [Split("", sep)] is [[""]]. *)
Fixpoint Split (s : string) (sep : ascii) : list string :=
  match s with
  | EmptyString => [EmptyString]
  | String c s' =>
      if Ascii.eqb c sep then EmptyString :: Split s' sep
      else match Split s' sep with
           | piece :: pieces => String c piece :: pieces
           | [] => [String c EmptyString]
           end
  end.

(** [strings.SplitN(s, sep, 2)] for a separator of one byte: cut at the
    first separator only; the second piece is the unsplit remainder. *)
Fixpoint SplitN2 (s : string) (sep : ascii) : list string :=
  match s with
  | EmptyString => [EmptyString]
  | String c s' =>
      if Ascii.eqb c sep then [EmptyString; s']
      else match SplitN2 s' sep with
           | piece :: pieces => String c piece :: pieces
           | [] => [String c EmptyString]
           end
  end.

(** The UTF-8 encodings of the code points for which [unicode.IsSpace]
    holds: U+0009..U+000D, U+0020, U+0085, U+00A0, U+1680, U+2000..U+200A,
    U+2028, U+2029, U+202F, U+205F, U+3000.  A rune decoded from a string is
    one of them exactly when the bytes at that place are one of these
    encodings (an invalid encoding decodes to U+FFFD, which is no space). *)
Definition space_encodings : list string :=
  (bytes <$> [[9]; [10]; [11]; [12]; [13]; [32]; [194; 133]; [194; 160];
              [225; 154; 128]])
  ++ ((λ b, bytes [226; 128; b]) <$> seq 128 11)
  ++ (bytes <$> [[226; 128; 168]; [226; 128; 169]; [226; 128; 175];
                 [226; 129; 159]; [227; 128; 128]]).

Fixpoint strip_any (toks : list string) (s : string) : option string :=
  match toks with
  | [] => None
  | tok :: toks' =>
      match strip_prefix tok s with
      | Some r => Some r
      | None => strip_any toks' s
      end
  end.

Fixpoint trim_leading (toks : list string) (fuel : nat) (s : string) : string :=
  match fuel with
  | O => s
  | S fuel' =>
      match strip_any toks s with
      | Some r => trim_leading toks fuel' r
      | None => s
      end
  end.

Definition TrimLeft (s : string) : string :=
  trim_leading space_encodings (String.length s) s.

Definition TrimRight (s : string) : string :=
  String.rev (trim_leading (String.rev <$> space_encodings)
                (String.length s) (String.rev s)).

(** [strings.TrimSpace(s)]: all leading and trailing white space removed. *)
Definition TrimSpace (s : string) : string := TrimRight (TrimLeft s).

End strings.

Inductive error : Type :=
  | ErrSyntax      (* strconv: invalid syntax *)
  | ErrRange       (* strconv: value out of range *)
  | ErrNotFound    (* exec: executable file not found in $PATH *)
  | ErrCreate.     (* os: the file cannot be created *)

(** ** Panics *)

Inductive PanicValue : Type :=
  | PanicError (e : error)   (* panic(e) raised by check *)
  | IndexOutOfRange          (* runtime error: index out of range *)
  | NilDereference.          (* runtime error: nil pointer dereference *)

Inductive Result (A : Type) : Type :=
  | Ok (a : A)
  | Panic (e : PanicValue).
Arguments Ok {A} a.
Arguments Panic {A} e.

#[global] Instance Result_ret : MRet Result := λ A a, Ok a.
#[global] Instance Result_bind : MBind Result := λ A B k r,
  match r with
  | Ok a => k a
  | Panic e => Panic e
  end.

(** [check(e)]: panic when the error is not nil. *)
Definition check (e : option error) : Result unit :=
  match e with
  | None => Ok tt
  | Some err => Panic (PanicError err)
  end.

Module strconv.

Local Open Scope Z_scope.

Definition maxUint64 : Z := 2 ^ 64 - 1.

Definition digit (c : ascii) : option Z :=
  let n := Z.of_nat (Ascii.nat_of_ascii c) in
  if (48 <=? n) && (n <=? 57) then Some (n - 48) else None.

(** The digit loop of [strconv.ParseUint(s, 10, 64)], with its two
    overflow tests. *)
Fixpoint ParseUint_loop (s : string) (n : Z) : Z * option error :=
  match s with
  | EmptyString => (n, None)
  | String c s' =>
      match digit c with
      | None => (0, Some ErrSyntax)
      | Some d =>
          if maxUint64 / 10 + 1 <=? n then (maxUint64, Some ErrRange)
          else
            let n1 := n * 10 + d in
            if maxUint64 <? n1 then (maxUint64, Some ErrRange)
            else ParseUint_loop s' n1
      end
  end.

Definition ParseUint (s : string) : Z * option error :=
  match s with
  | EmptyString => (0, Some ErrSyntax)
  | _ => ParseUint_loop s 0
  end.

(** [strconv.ParseInt(s, 10, 64)]: an optional sign, then decimal digits;
    the value must fit an [int64]. *)
Definition ParseInt (s : string) : Z * option error :=
  match s with
  | EmptyString => (0, Some ErrSyntax)
  | String c s' =>
      let neg := Ascii.eqb c "-" in
      let s1 := if Ascii.eqb c "+" || neg then s' else s in
      let cutoff := 2 ^ 63 in
      match ParseUint s1 with
      | (_, Some ErrSyntax) => (0, Some ErrSyntax)
      | (un, _) =>
          if negb neg && (cutoff <=? un) then (cutoff - 1, Some ErrRange)
          else if neg && (cutoff <? un) then (- cutoff, Some ErrRange)
          else (if neg then - un else un, None)
      end
  end.

(** The digits of [n] in base 10, as [%d] prints an unsigned integer. *)
Fixpoint FormatUint_loop (fuel : nat) (n : Z) (acc : string) : string :=
  match fuel with
  | O => acc
  | S fuel' =>
      let acc' := String (Ascii.ascii_of_nat (Z.to_nat (48 + n mod 10))) acc in
      if n <? 10 then acc' else FormatUint_loop fuel' (n / 10) acc'
  end.

Definition FormatUint (n : Z) : string := FormatUint_loop 20 n "".

End strconv.

Module bufio.

(** [bufio.MaxScanTokenSize]. *)
Definition MaxScanTokenSize : nat := 64 * 1024.

(** The lines of the input: the pieces between line feeds, without a final
    empty piece. *)
Definition raw_lines (content : string) : list string :=
  let pieces := strings.Split content LF in
  match reverse pieces with
  | EmptyString :: before => reverse before
  | _ => pieces
  end.

(** [dropCR]: one trailing carriage return is removed. *)
Definition dropCR (line : string) : string :=
  match String.rev line with
  | String c r => if Ascii.eqb c CR then String.rev r else line
  | EmptyString => line
  end.

Definition fits (line : string) : bool :=
  Nat.ltb (String.length line) MaxScanTokenSize.

Fixpoint take_fitting (lines : list string) : list string :=
  match lines with
  | [] => []
  | line :: rest => if fits line then line :: take_fitting rest else []
  end.

(** What the successive calls of [Scanner.Scan] / [Scanner.Text] deliver
    with the default split function [ScanLines]: the lines, each without
    its end-of-line marker, up to the first line that does not fit the
    scanner's buffer, where [Scan] gives up and returns false. *)
Definition Scanner_lines (content : string) : list string :=
  dropCR <$> take_fitting (raw_lines content).

End bufio.

Module sort.

(** [sort.Strings]: increasing byte-wise order.  The result is the unique
    sorted arrangement of the slice, whatever algorithm produces it. *)
Definition Strings (a : list string) : list string :=
  merge_sort String.le a.

(** A [sort.Interface] over a slice is given here by its [Less], as a
    comparison of two elements; [Len] and [Swap] are those of the slice. *)
Definition Interface (A : Type) : Type := A → A → bool.

(** [sort.Reverse(data)]: [Less(i, j)] is [data.Less(j, i)]. *)
Definition Reverse {A} (less : Interface A) : Interface A :=
  λ a b, less b a.

(** [less] is a strict weak order on the elements of [l]. *)
Definition StrictWeakOrder {A} (less : Interface A) (l : list A) : Prop :=
  (∀ a b, a ∈ l → b ∈ l → less a b = true → less b a = false)
  ∧ (∀ a b c, a ∈ l → b ∈ l → c ∈ l →
       less a b = false → less b c = false → less a c = false).

(** [sort.Sort(data)] is library code.  Its documentation promises that the
    data ends up in increasing order as determined by [Less], rearranged
    through [Swap] only, and states that the sort is not guaranteed to be
    stable.  The program is verified against every function that keeps that
    promise. *)
Class Sorter : Type := {
  Sort : ∀ {A : Type}, Interface A → list A → list A;
  Sort_Permutation : ∀ (A : Type) (less : Interface A) (l : list A),
    Sort less l ≡ₚ l;
  Sort_Sorted : ∀ (A : Type) (less : Interface A) (l : list A),
    StrictWeakOrder less l → Sorted (λ a b, less b a = false) (Sort less l)
}.

(** Two functions that the library has used for short slices, in terms of
    the elements: [insertionSort], and a Shell pass of gap 6 followed by
    [insertionSort]. *)

(** [for j := i; j > a && data.Less(j, j-1); j-- { data.Swap(j, j-1) }],
    on the sorted prefix held in reverse (its last element first). *)
Fixpoint sink {A} (less : Interface A) (x : A) (before : list A) : list A :=
  match before with
  | [] => [x]
  | y :: before' =>
      if less x y then y :: sink less x before' else x :: y :: before'
  end.

Definition insertionSort {A} (less : Interface A) (l : list A) : list A :=
  reverse (foldl (λ before x, sink less x before) [] l).

(** [if data.Less(i, i-6) { data.Swap(i, i-6) }] *)
Definition gap_step {A} (less : Interface A) (l : list A) (i : nat) : list A :=
  match l !! i, l !! (i - 6)%nat with
  | Some x, Some y => if less x y then <[(i - 6)%nat := x]> (<[i := y]> l) else l
  | _, _ => l
  end.

(** [for i := a + 6; i < b; i++ { ... }] *)
Definition gap_pass {A} (less : Interface A) (l : list A) : list A :=
  foldl (gap_step less) l (seq 6 (length l - 6)).

Definition shellSort {A} (less : Interface A) (l : list A) : list A :=
  insertionSort less (gap_pass less l).

End sort.

(** ** The environment *)

(** What [os.FileInfo] tells about a directory entry. *)
Record FileInfo := mkFileInfo {
  fi_Name : string;
  fi_Mode : Z           (* os.FileMode, a uint32 *)
}.

Record FileSystem := mkFileSystem {
  (** the files that [os.Open] opens, with their content *)
  fs_files : gmap string string;
  (** the directories that [ioutil.ReadDir] reads, with the entries it
      returns (it returns them sorted by file name) *)
  fs_dirs : gmap string (list FileInfo);
  (** the paths at which [os.Create] fails *)
  fs_denied : gset string
}.

Module os.

(** [os.Open(path)]: the content to read, or an error. *)
Definition Open (fs : FileSystem) (path : string) : option string :=
  fs_files fs !! path.

(** [os.Create(path)]: an error when the file cannot be created. *)
Definition Create (fs : FileSystem) (path : string) : option error :=
  if decide (path ∈ fs_denied fs) then Some ErrCreate else None.

(** The file system after [os.Create(path)], the writes and [Close]: the
    file holds exactly what was written. *)
Definition store (fs : FileSystem) (path content : string) : FileSystem :=
  mkFileSystem (<[path := content]> (fs_files fs)) (fs_dirs fs) (fs_denied fs).

End os.

Module ioutil.

(** [ioutil.ReadDir(dir)]: the entries and an error; no entries on error. *)
Definition ReadDir (fs : FileSystem) (dir : string)
  : list FileInfo * option error :=
  match fs_dirs fs !! dir with
  | Some files => (files, None)
  | None => ([], Some ErrNotFound)
  end.

End ioutil.

(** ** Data model (main.go, lines 17-36) *)

Definition uint64 (z : Z) : Z := (z mod 2 ^ 64)%Z.

Record Command := mkCommand {
  Name : string;
  Calls : Z              (* uint64 *)
}.

(** [*Command]: an address of the heap; an address that the heap does not
    hold stands for the nil pointer. *)
Abbreviation ptr := nat (only parsing).
Abbreviation Heap := (list Command) (only parsing).
Abbreviation Commands := (list ptr) (only parsing).

Definition deref (h : Heap) (p : ptr) : Result Command :=
  match h !! p with
  | Some c => Ok c
  | None => Panic NilDereference
  end.

(** [&Command{...}] *)
Definition alloc (h : Heap) (c : Command) : ptr * Heap :=
  (length h, h ++ [c]).

(** The commands that a slice shows in a heap. *)
Definition view (h : Heap) (commands : Commands) : list (option Command) :=
  (λ p, h !! p) <$> commands.

(** [s[i]] on a slice. *)
Definition index {A} (s : list A) (i : nat) : Result A :=
  match s !! i with
  | Some x => Ok x
  | None => Panic IndexOutOfRange
  end.

(** [ByScore.Less]: [s.Commands[i].Calls < s.Commands[j].Calls].  It is
    only ever applied to addresses that [readHistory] has just allocated. *)
Definition ByScore (h : Heap) : sort.Interface ptr :=
  λ p q,
    match h !! p, h !! q with
    | Some a, Some b => (Calls a <? Calls b)%Z
    | _, _ => false
    end.

(** ** fetchExecutables (main.go, lines 44-58) *)

Definition mode_0111 : Z := (1 * 8 ^ 2 + 1 * 8 + 1)%Z.

Definition executable (f : FileInfo) : bool :=
  negb (Z.land (fi_Mode f) mode_0111 =? 0)%Z.

(** The values sent on [out] before it is closed. *)
Definition fetchExecutables (fs : FileSystem) (dir : string) : list string :=
  let '(files, _) := ioutil.ReadDir fs dir in
  foldl (λ out f, if executable f then out ++ [fi_Name f] else out) [] files.

(** ** scanPath (main.go, lines 61-90)

    One goroutine per directory appends to the shared slice [commands]
    with no synchronisation.  [commands = append(commands, item)] reads the
    slice and later writes the longer slice back; steps of other goroutines
    may fall in between.  A run is given by its schedule: the goroutine that
    takes each successive step.  The slice that a goroutine has read is
    kept as a value; the runs of this model are runs of the program (the
    program has more: writes into a shared backing array are not
    modelled). *)

Module ScanPath.

Record Worker := mkWorker {
  (** the items that [fetchExecutables(dir)] has yet to deliver *)
  inbox : list string;
  (** inside [append]: the value read from [commands] and the item *)
  loaded : option (list string * string)
}.

Record State := mkState {
  commands : list string;
  workers : list Worker
}.

Definition init (fs : FileSystem) (path : string) : State :=
  mkState [] ((λ dir, mkWorker (fetchExecutables fs dir) None)
                <$> strings.Split path ":").

(** One step of goroutine [i]; [None] when it has called [group.Done]. *)
Definition step (i : nat) (st : State) : option State :=
  match workers st !! i with
  | None => None
  | Some w =>
      match loaded w, inbox w with
      | Some (snapshot, item), _ =>
          Some (mkState (snapshot ++ [item])
                        (<[i := mkWorker (inbox w) None]> (workers st)))
      | None, item :: rest =>
          Some (mkState (commands st)
                        (<[i := mkWorker rest (Some (commands st, item))]>
                           (workers st)))
      | None, [] => None
      end
  end.

Fixpoint run (schedule : list nat) (st : State) : option State :=
  match schedule with
  | [] => Some st
  | i :: schedule' =>
      match step i st with
      | Some st' => run schedule' st'
      | None => None
      end
  end.

(** The goroutine has left its loop and called [group.Done]. *)
Definition called_Done (w : Worker) : bool :=
  match loaded w, inbox w with
  | None, [] => true
  | _, _ => false
  end.

(** [group.Wait()] returns when every goroutine is done. *)
Definition finished (st : State) : bool :=
  forallb called_Done (workers st).

(** The values sent on [out] in the run with the given schedule, [None]
    when the schedule is not a complete run. *)
Definition scanPath (fs : FileSystem) (path : string) (schedule : list nat)
  : option (list string) :=
  match run schedule (init fs path) with
  | Some st => if finished st then Some (sort.Strings (commands st)) else None
  | None => None
  end.

(** A schedule in which each append runs without interruption: goroutine
    [i] reads [commands] and writes it back at once. *)
Definition serial (order : list nat) : list nat :=
  order ≫= λ i, [i; i].

End ScanPath.

(** ** readHistory (main.go, lines 92-114) *)

(** The body of the scanning loop, up to the new [Command]. *)
Definition parse_line (text : string) : Result Command :=
  let line := strings.TrimSpace text in
  let s := strings.Split line TAB in
  s0 ← index s 0;
  let '(calls, err) := strconv.ParseInt s0 in
  _ ← check err;
  s1 ← index s 1;
  Ok (mkCommand s1 (uint64 calls)).

(** [history = append(history, &Command{s[1], uint64(calls)})] *)
Definition read_line (h : Heap) (history : Commands) (text : string)
  : Result (Heap * Commands) :=
  command ← parse_line text;
  let '(p, h') := alloc h command in
  Ok (h', history ++ [p]).

Fixpoint read_loop (h : Heap) (history : Commands) (lines : list string)
  : Result (Heap * Commands) :=
  match lines with
  | [] => Ok (h, history)
  | text :: lines' =>
      '(h', history') ← read_line h history text;
      read_loop h' history' lines'
  end.

Definition readHistory `{sort.Sorter} (fs : FileSystem) (path : string)
  (h : Heap) : Result (Heap * Commands) :=
  match os.Open fs path with
  | None => Ok (h, [])
  | Some content =>
      '(h', history) ← read_loop h [] (bufio.Scanner_lines content);
      Ok (h', sort.Sort (sort.Reverse (ByScore h')) history)
  end.

(** ** writeHistory (main.go, lines 116-136) *)

(** [fmt.Fprintf(f, "%d\t%s\n", command.Calls, command.Name)], on the text
    written so far. *)
Definition write (f : string) (command : Command) : string :=
  f +:+ strconv.FormatUint (Calls command) +:+ tab +:+ Name command +:+ nl.

Fixpoint write_loop (h : Heap) (lastCommand : string) (f : string)
  (commands : Commands) : Result (Heap * string * string) :=
  match commands with
  | [] => Ok (h, lastCommand, f)
  | p :: commands' =>
      command ← deref h p;
      if decide (Name command = lastCommand) then
        let command' := mkCommand (Name command) (uint64 (Calls command + 1)%Z) in
        write_loop (<[p := command']> h) "" (write f command') commands'
      else
        write_loop h lastCommand (write f command) commands'
  end.

Definition writeHistory (fs : FileSystem) (path : string) (h : Heap)
  (commands : Commands) (lastCommand : string) : Result (FileSystem * Heap) :=
  _ ← check (os.Create fs path);
  '(h', lastCommand', f) ← write_loop h lastCommand "" commands;
  let f' :=
    if decide (lastCommand' ≠ "") then write f (mkCommand lastCommand' 1)
    else f in
  Ok (os.store fs path f', h').

(** ** historyNameStream (main.go, lines 162-171) *)

Fixpoint historyNameStream (h : Heap) (commands : Commands)
  : Result (list string) :=
  match commands with
  | [] => Ok []
  | p :: commands' =>
      command ← deref h p;
      names ← historyNameStream h commands';
      Ok (Name command :: names)
  end.

(** ** launchCommand (main.go, lines 205-214) *)

Record Cmd := mkCmd { Path : string; Args : list string }.

Module exec.

(** [exec.Command(name, arg...)] *)
Definition Command (name : string) (arg : list string) : Cmd :=
  mkCmd name (name :: arg).

End exec.

Section launch.

(** [exec.LookPath], as the search path and the file system decide it. *)
Variable LookPath : string → option string.

Definition exec_LookPath (file : string) : string * option error :=
  match LookPath file with
  | Some path => (path, None)
  | None => ("", Some ErrNotFound)
  end.

Definition launchCommand (command : string) : Result Cmd :=
  let split := strings.SplitN2 command SP in
  command ← index split 0;
  let args := drop 1 split in
  let '(path, err) := exec_LookPath command in
  _ ← check err;
  Ok (exec.Command path args).

(** ** main (lines 244-250): what happens to the line that dmenu returns *)

Definition main_selected (fs : FileSystem) (historyPath : string) (h : Heap)
  (history : Commands) (cmd : string) : Result (FileSystem * Heap) :=
  if (0 <? String.length cmd)%nat then
    _ ← launchCommand cmd;
    writeHistory fs historyPath h history cmd
  else Ok (fs, h).

End launch.

(** ** multiplexMenuStreams (main.go, lines 138-160) *)

Module Multiplex.

(** State of the goroutine: the [seen] map and what was sent on [out]. *)
Record State := mkState { seen : gmap string bool; out : list string }.

(** First loop body: [seen[cmd] = true; out <- cmd]. *)
Definition history_step (st : State) (cmd : string) : State :=
  mkState (<[cmd := true]> (seen st)) (out st ++ [cmd]).

(** Second loop body: [if _, ok := seen[cmd]; !ok { out <- cmd }]. *)
Definition commands_step (st : State) (cmd : string) : State :=
  match seen st !! cmd with
  | Some _ => st
  | None => mkState (seen st) (out st ++ [cmd])
  end.

Definition multiplexMenuStreams (history commands : list string) : list string :=
  let st0 := mkState ∅ [] in
  let st1 := foldl history_step st0 history in
  let st2 := foldl commands_step st1 commands in
  out st2.

End Multiplex.

(** ** dmenuArgs (main.go, lines 194-203) *)

(** [for i, val := range args { if val == "--" { return args[i+1:] } }
    return nil] *)
Fixpoint after_separator (args : list string) : list string :=
  match args with
  | [] => []
  | val :: rest => if decide (val = "--") then rest else after_separator rest
  end.

(** [os.Args] holds the name of the program and then its arguments;
    [args := os.Args[1:]].  A nil slice and an empty one are both [[]]. *)
Definition dmenuArgs (program : string) (arguments : list string)
  : list string :=
  let os_Args := program :: arguments in
  let args := drop 1 os_Args in
  after_separator args.

(** ** main (lines 238-242): the menu that is handed to dmenu

    [multiplexMenuStreams(historyNameStream(history), executables)]. *)
Definition main_menu (h : Heap) (history : Commands)
  (executables : list string) : Result (list string) :=
  names ← historyNameStream h history;
  Ok (Multiplex.multiplexMenuStreams names executables).

(** * Vocabulary of the properties *)

(** [a] may stand after [b]: [a] is not less than [b]. *)
Definition not_less {A} (less : sort.Interface A) : relation A :=
  λ a b, less a b = false.

(** The exchange of the indices [i] and [j]. *)
Definition transpose (i j k : nat) : nat :=
  if decide (k = i) then j else if decide (k = j) then i else k.

(** The records of a history file, in file order: what the scanning loop
    of [readHistory] builds, one [Command] per line. *)
Fixpoint parse_all (lines : list string) : Result (list Command) :=
  match lines with
  | [] => Ok []
  | text :: lines' =>
      command ← parse_line text;
      commands ← parse_all lines';
      Ok (command :: commands)
  end.

(** The count field of a line: [s[0]] in the scanning loop. *)
Definition count_field (text : string) : string :=
  hd "" (strings.Split (strings.TrimSpace text) TAB).

(** The line has a name field: [s[1]] exists. *)
Definition has_name_field (text : string) : bool :=
  Nat.leb 2 (length (strings.Split (strings.TrimSpace text) TAB)).

(** Rank order: [Calls] descending. *)
Definition ranked (commands : list Command) : Prop :=
  Sorted (λ a b, (Calls b ≤ Calls a)%Z) commands.

(** [after] holds the commands of [before], and those with equal [Calls]
    in the same relative order. *)
Definition ties_in_order (before after : list Command) : Prop :=
  ∀ n : Z, filter (λ c, Calls c = n) after = filter (λ c, Calls c = n) before.

(** Following the words of the specification of [read]: the commands of
    the file come back in rank order, those with equal [Calls] in file
    order. *)
Definition read_is_stable (S : sort.Sorter) : Prop :=
  ∀ (fs : FileSystem) (path : string) (h : Heap) (content : string)
    (cmds : list Command),
    os.Open fs path = Some content →
    parse_all (bufio.Scanner_lines content) = Ok cmds →
    ∃ h' ps sorted,
      readHistory fs path h = Ok (h', ps)
      ∧ view h' ps = Some <$> sorted
      ∧ ranked sorted
      ∧ ties_in_order cmds sorted.

(** The effect of one recorded launch on a sequence of commands: the first
    command named [lastLaunched] has its counter incremented. *)
Fixpoint bump_first (lastLaunched : string) (commands : list Command)
  : list Command :=
  match commands with
  | [] => []
  | c :: commands' =>
      if decide (Name c = lastLaunched)
      then mkCommand (Name c) (uint64 (Calls c + 1)) :: commands'
      else c :: bump_first lastLaunched commands'
  end.

(** The history file of a sequence of commands: a line ["Calls\tName\n"]
    for each, in order. *)
Fixpoint render (commands : list Command) : string :=
  match commands with
  | [] => ""
  | c :: commands' =>
      strconv.FormatUint (Calls c) +:+ tab +:+ Name c +:+ nl
      +:+ render commands'
  end.

(** Following the words of the specification of [write]: every command in
    input order, the first match incremented, and a new record with
    [Calls = 1] at the end when nothing matched. *)
Definition spec_write (commands : list Command) (lastLaunched : string)
  : string :=
  if decide (lastLaunched ∈ Name <$> commands)
  then render (bump_first lastLaunched commands)
  else render (commands ++ [mkCommand lastLaunched 1]).

(** The specification of [write], for every sequence of commands and
    every selected name. *)
Definition write_as_specified : Prop :=
  ∀ (fs : FileSystem) (path : string) (h : Heap) (ps : Commands)
    (cmds : list Command) (lastLaunched : string),
    path ∉ fs_denied fs →
    view h ps = Some <$> cmds →
    NoDup ps →
    ∃ h',
      writeHistory fs path h ps lastLaunched
      = Ok (os.store fs path (spec_write cmds lastLaunched), h').

(** The effect of [write] on the commands in memory, for every sequence of
    commands and every selected name: the first match is incremented and
    nothing else changes. *)
Definition write_bumps_first_match_only : Prop :=
  ∀ (fs fs' : FileSystem) (path : string) (h h' : Heap) (ps : Commands)
    (cmds : list Command) (lastLaunched : string),
    view h ps = Some <$> cmds →
    NoDup ps →
    writeHistory fs path h ps lastLaunched = Ok (fs', h') →
    view h' ps = Some <$> bump_first lastLaunched cmds.

(** Following the words of the specification of the launch step: the line
    split at its first run of white space into the name of the executable
    and the raw remainder, if any. *)
Fixpoint skip_spaces (s : string) : string :=
  match s with
  | String c s' => if Ascii.is_space c then skip_spaces s' else s
  | EmptyString => s
  end.

Fixpoint spec_split (line : string) : string * option string :=
  match line with
  | EmptyString => (EmptyString, None)
  | String c line' =>
      if Ascii.is_space c then (EmptyString, Some (skip_spaces line'))
      else let '(name, remainder) := spec_split line' in
           (String c name, remainder)
  end.

Definition spec_launch (LookPath : string → option string) (line : string)
  : Result Cmd :=
  let '(name, remainder) := spec_split line in
  match LookPath name with
  | Some path => Ok (exec.Command path (option_list remainder))
  | None => Panic (PanicError ErrNotFound)
  end.

(** [contains c s]: the byte [c] occurs in [s]. *)
Fixpoint contains (c : ascii) (s : string) : bool :=
  match s with
  | EmptyString => false
  | String c' s' => Ascii.eqb c c' || contains c s'
  end.

(** A file system that holds one history file and nothing else. *)
Definition history_fs (path content : string) : FileSystem :=
  mkFileSystem {[ path := content ]} ∅ ∅.

(** A line of [n] bytes. *)
Fixpoint filler (n : nat) : string :=
  match n with
  | O => ""
  | S n' => String "a" (filler n')
  end.

(** A history line. *)
Definition record (calls name : string) : string :=
  calls +:+ tab +:+ name +:+ nl.

(** ** Vocabulary for scanPath *)

Section scan_vocabulary.
Import ScanPath.

(** What is still to come, and what has arrived. *)
Definition pending (st : State) : list string :=
  concat (inbox <$> workers st).

Definition quiet (st : State) : Prop :=
  Forall (λ w, loaded w = None) (workers st).

(** The directories of a search path, and everything they hold. *)
Definition discovered (fs : FileSystem) (path : string) : list string :=
  concat (fetchExecutables fs <$> strings.Split path ":").

(** The number of steps that remain. *)
Definition remaining (w : Worker) : nat :=
  2 * length (inbox w) + (if loaded w is Some _ then 1 else 0).

Definition steps_left (st : State) : nat :=
  sum_list (remaining <$> workers st).

End scan_vocabulary.

(** Two search-path directories. *)
Definition two_dirs : FileSystem :=
  mkFileSystem ∅
    {[ "d1" := [mkFileInfo "vim" (7 * 64 + 4 * 8 + 4)];
       "d2" := [mkFileInfo "emacs" (7 * 64 + 4 * 8 + 4);
                mkFileInfo "nano" (7 * 64 + 4 * 8 + 4)] ]} ∅.

Definition two_dirs_one_each : FileSystem :=
  mkFileSystem ∅
    {[ "d1" := [mkFileInfo "vim" (7 * 64 + 4 * 8 + 4)];
       "d2" := [mkFileInfo "emacs" (7 * 64 + 4 * 8 + 4)] ]} ∅.

(** A search path on which only [echo] is found. *)
Definition echo_only (file : string) : option string :=
  if decide (file = "echo") then Some "/bin/echo" else None.

(** ** Vocabulary for the history file *)

(** A visible ASCII byte: neither a blank nor a control byte nor part of a
    multi-byte character. *)
Definition plain (c : ascii) : bool :=
  let n := Ascii.nat_of_ascii c in Nat.leb 33 n && Nat.leb n 126.

Fixpoint last_byte (s : string) : option ascii :=
  match s with
  | EmptyString => None
  | String c EmptyString => Some c
  | String _ s' => last_byte s'
  end.

(** A name that a line of the history file can hold: no tab, no line feed,
    a visible last byte, and room in the scanner's buffer for the count,
    the tab and the end of the line. *)
Definition storable (name : string) : bool :=
  negb (contains TAB name) && negb (contains LF name)
  && match last_byte name with Some c => plain c | None => false end
  && Nat.ltb (String.length name + 22) bufio.MaxScanTokenSize.

(** The line that [writeHistory] prints for a command, without its end. *)
Definition line_of (c : Command) : string :=
  strconv.FormatUint (Calls c) +:+ tab +:+ Name c.

(** The same history with Windows line ends. *)
Fixpoint render_crlf (commands : list Command) : string :=
  match commands with
  | [] => ""
  | c :: commands' => line_of c +:+ String CR nl +:+ render_crlf commands'
  end.

Fixpoint all_digits (s : string) : bool :=
  match s with
  | EmptyString => true
  | String c s' => bool_decide (is_Some (strconv.digit c)) && all_digits s'
  end.

(** The number that the decimal digits [s] denote after the prefix [n]. *)
Fixpoint digits_value (s : string) (n : Z) : Z :=
  match s with
  | EmptyString => n
  | String c s' => digits_value s' (n * 10 + default 0%Z (strconv.digit c))
  end.

(** [tok] is not empty and does not start with [c]. *)
Definition starts_other (c : ascii) (tok : string) : bool :=
  match tok with
  | String a _ => negb (Ascii.eqb a c)
  | EmptyString => false
  end.

(** A command that [readHistory] accepts as written: the count fits a
    signed 64-bit integer.  A command that is still so after one more
    call.  A command that [writeHistory] prints without loss. *)
Definition readable (c : Command) : Prop :=
  storable (Name c) = true ∧ (0 ≤ Calls c < 2 ^ 63)%Z.

Definition bumpable (c : Command) : Prop :=
  storable (Name c) = true ∧ (0 ≤ Calls c < 2 ^ 63 - 1)%Z.

Definition printable (c : Command) : Prop :=
  storable (Name c) = true ∧ (0 ≤ Calls c < 2 ^ 64)%Z.

(** What the history file holds after [last] was launched. *)
Definition stored (cmds : list Command) (last : string) : list Command :=
  bump_first last cmds
  ++ (if decide (last ∈ Name <$> cmds) then [] else [mkCommand last 1]).

Definition total_calls (cmds : list Command) : Z :=
  foldr (λ c n, (Calls c + n)%Z) 0%Z cmds.

(** The count of the first command called [name], 0 when there is none. *)
Fixpoint calls_of (name : string) (cmds : list Command) : Z :=
  match cmds with
  | [] => 0%Z
  | c :: cmds' => if decide (Name c = name) then Calls c else calls_of name cmds'
  end.

(** The slice of [TestByScore_Sort]. *)
Definition three_commands : list Command :=
  [mkCommand "vim" 2; mkCommand "nano" 0; mkCommand "emacs" 1].

(** * Properties *)

(** ** The library models on examples *)

Example TrimSpace_example :
  strings.TrimSpace ("  a b" +:+ tab +:+ bytes [194; 160] +:+ nl) = "a b".
Proof. vm_compute. reflexivity. Qed.

Example Split_example :
  strings.Split ("3" +:+ tab +:+ "vim") TAB = ["3"; "vim"]
  ∧ strings.Split "" TAB = [""]
  ∧ strings.Split "/bin::/usr/bin" ":" = ["/bin"; ""; "/usr/bin"].
Proof. split_and!; reflexivity. Qed.

Example ParseInt_example :
  strconv.ParseInt "-9223372036854775808" = ((-9223372036854775808)%Z, None)
  ∧ strconv.ParseInt "9223372036854775808"
    = (9223372036854775807%Z, Some ErrRange)
  ∧ strconv.ParseInt "+42" = (42%Z, None)
  ∧ strconv.ParseInt "12a" = (0%Z, Some ErrSyntax)
  ∧ strconv.ParseInt "" = (0%Z, Some ErrSyntax).
Proof. split_and!; vm_compute; reflexivity. Qed.

Example FormatUint_example :
  strconv.FormatUint 0 = "0"
  ∧ strconv.FormatUint 18446744073709551615 = "18446744073709551615".
Proof. split; vm_compute; reflexivity. Qed.

Example Scanner_lines_example :
  bufio.Scanner_lines ("a" +:+ nl +:+ nl +:+ "b" +:+ String CR nl +:+ "c")
  = ["a"; ""; "b"; "c"]
  ∧ bufio.Scanner_lines "" = [].
Proof. split; vm_compute; reflexivity. Qed.

Example Strings_example :
  sort.Strings ["vim"; "emacs"; "nano"; "Zsh"] = ["Zsh"; "emacs"; "nano"; "vim"].
Proof. vm_compute. reflexivity. Qed.

(** ** historyNameStream *)

(** The names of the commands, in order. *)
Lemma historyNameStream_names (h : list Command) ps cmds :
  view h ps = Some <$> cmds → historyNameStream h ps = Ok (Name <$> cmds).
Proof.
  revert cmds. induction ps as [|p ps IH]; intros cmds Hview.
  - by destruct cmds.
  - destruct cmds as [|c cmds]; [done|]. injection Hview as Hp Hps.
    simpl. unfold deref. rewrite Hp. simpl. by rewrite (IH cmds).
Qed.

(** ** multiplexMenuStreams *)

Section multiplex_facts.
Import Multiplex.

Lemma history_loop_out (history : list string) st :
  out (foldl history_step st history) = out st ++ history.
Proof.
  revert st. induction history as [|c cs IH]; intros st; simpl.
  - by rewrite app_nil_r.
  - rewrite IH. simpl. by rewrite <- app_assoc.
Qed.

Lemma history_loop_seen (history : list string) st x :
  is_Some (seen (foldl history_step st history) !! x)
  ↔ is_Some (seen st !! x) ∨ x ∈ history.
Proof.
  revert st. induction history as [|c cs IH]; intros st; simpl.
  - rewrite elem_of_nil. tauto.
  - rewrite IH. simpl. rewrite lookup_insert_is_Some, elem_of_cons.
    destruct (decide (c = x)) as [->|Hne]; [by intuition|].
    assert (x ≠ c) by congruence. by intuition.
Qed.

Lemma commands_loop_seen (commands : list string) st :
  seen (foldl commands_step st commands) = seen st.
Proof.
  revert st. induction commands as [|c cs IH]; intros st; simpl; [done|].
  rewrite IH. unfold commands_step. by destruct (seen st !! c).
Qed.

Lemma commands_loop_out (commands : list string) st :
  out (foldl commands_step st commands)
  = out st ++ filter (λ x, seen st !! x = None) commands.
Proof.
  revert st. induction commands as [|c cs IH]; intros st; simpl.
  - by rewrite app_nil_r.
  - rewrite IH. unfold commands_step.
    destruct (seen st !! c) eqn:E.
    + rewrite filter_cons_False by (rewrite E; discriminate). done.
    + rewrite filter_cons_True by done. simpl. by rewrite <- app_assoc.
Qed.

Lemma multiplex_closed_form (ranked discovered : list string) :
  multiplexMenuStreams ranked discovered
  = ranked ++ filter (λ x, x ∉ ranked) discovered.
Proof.
  unfold multiplexMenuStreams.
  rewrite commands_loop_out, history_loop_out. simpl. f_equal.
  apply list_filter_iff. intros x.
  pose proof (history_loop_seen ranked (mkState ∅ []) x) as H.
  simpl in H. rewrite lookup_empty in H.
  rewrite eq_None_not_Some, H.
  split; [intros Hn Hx; apply Hn; by right|].
  intros Hn [[? ?]|?]; [done|by apply Hn].
Qed.

(** C1. StreamMultiplexer emits all ranked names first, in order and
    unconditionally, then each discovered name, in order, exactly when it
    does not occur among the ranked names; hence every ranked name precedes
    every newly discovered one.  On ranked = [vim, emacs, neovim] and
    discovered = [emacs, nano, vim] the output is [vim, emacs, neovim, nano]. *)
Theorem multiplex_ranked_then_new :
  (∀ ranked discovered : list string,
     multiplexMenuStreams ranked discovered
     = ranked ++ filter (λ x, x ∉ ranked) discovered)
  ∧ (∀ (ranked discovered : list string) (i j : nat) (r d : string),
       multiplexMenuStreams ranked discovered !! i = Some r →
       multiplexMenuStreams ranked discovered !! j = Some d →
       r ∈ ranked → d ∉ ranked → (i < j)%nat)
  ∧ multiplexMenuStreams ["vim"; "emacs"; "neovim"] ["emacs"; "nano"; "vim"]
    = ["vim"; "emacs"; "neovim"; "nano"].
Proof.
  split; [exact multiplex_closed_form|]. split.
  - intros ranked discovered i j r d Hi Hj Hr Hd.
    rewrite multiplex_closed_form in Hi, Hj.
    destruct (decide (j < length ranked)%nat) as [Hlt|Hge].
    + rewrite lookup_app_l in Hj by done.
      exfalso. apply Hd. eapply list_elem_of_lookup_2; eauto.
    + destruct (decide (i < length ranked)%nat) as [?|Hige]; [lia|].
      rewrite lookup_app_r in Hi by lia.
      apply list_elem_of_lookup_2 in Hi.
      apply list_elem_of_filter in Hi as [Hn _]. done.
  - rewrite multiplex_closed_form. vm_compute. reflexivity.
Qed.

End multiplex_facts.


(** ** The two sorting functions *)

Section sorters.
Context {A : Type} (less : sort.Interface A).

Lemma sink_Permutation x before : sort.sink less x before ≡ₚ x :: before.
Proof.
  induction before as [|y ys IH]; simpl; [done|].
  destruct (less x y); [|done]. rewrite IH. apply Permutation_swap.
Qed.

Lemma insertion_loop_Permutation l before :
  foldl (λ b x, sort.sink less x b) before l ≡ₚ before ++ l.
Proof.
  revert before. induction l as [|x l IH]; intros before; simpl.
  - by rewrite app_nil_r.
  - rewrite IH, sink_Permutation. simpl. apply Permutation_middle.
Qed.

Lemma insertionSort_Permutation l : sort.insertionSort less l ≡ₚ l.
Proof.
  unfold sort.insertionSort. rewrite reverse_Permutation.
  by rewrite insertion_loop_Permutation.
Qed.

Section asymmetric.
Variable P : A → Prop.
Hypothesis asym : ∀ a b, P a → P b → less a b = true → less b a = false.

Lemma sink_Sorted x before :
  P x → Forall P before →
  Sorted (not_less less) before → Sorted (not_less less) (sort.sink less x before).
Proof.
  intros Hx HP. induction 1 as [|y ys Hs IH Hhd]; simpl.
  - repeat constructor.
  - apply Forall_cons in HP as [Hy HP].
    destruct (less x y) eqn:Exy.
    + constructor; [by apply IH|].
      destruct Hhd as [|z zs Hyz]; simpl.
      * constructor. by apply asym.
      * destruct (less x z); constructor; [done|by apply asym].
    + constructor; [by constructor|]. by constructor.
Qed.

Lemma sink_Forall x before :
  P x → Forall P before → Forall P (sort.sink less x before).
Proof.
  intros Hx HP. rewrite sink_Permutation. by constructor.
Qed.

Lemma insertion_loop_Sorted l before :
  Forall P l → Forall P before →
  Sorted (not_less less) before →
  Sorted (not_less less) (foldl (λ b x, sort.sink less x b) before l).
Proof.
  intros Hl. revert before.
  induction Hl as [|x l Hx Hl IH]; intros before HP Hb; simpl; [done|].
  apply IH; [by apply sink_Forall|by apply sink_Sorted].
Qed.

End asymmetric.

Lemma insertionSort_Sorted l :
  sort.StrictWeakOrder less l →
  Sorted (λ a b, less b a = false) (sort.insertionSort less l).
Proof.
  intros [Hasym _]. unfold sort.insertionSort.
  apply (Sorted_reverse (not_less less)).
  apply (insertion_loop_Sorted (λ a, a ∈ l)); [done| |done|constructor].
  by apply Forall_forall.
Qed.

Lemma swap_Permutation (l : list A) i j x y :
  l !! i = Some x → l !! j = Some y →
  <[j := x]> (<[i := y]> l) ≡ₚ l.
Proof.
  intros Hi Hj. apply Permutation_inj. split.
  - by rewrite !length_insert.
  - exists (transpose i j). split.
    + intros a b. unfold transpose. repeat case_decide; congruence.
    + intros k. unfold transpose.
      pose proof (lookup_lt_Some _ _ _ Hi). pose proof (lookup_lt_Some _ _ _ Hj).
      destruct (decide (k = j)) as [->|Hkj].
      * rewrite list_lookup_insert_eq by (by rewrite length_insert).
        case_decide; congruence.
      * rewrite list_lookup_insert_ne by done.
        destruct (decide (k = i)) as [->|Hki].
        -- by rewrite list_lookup_insert_eq.
        -- by rewrite list_lookup_insert_ne.
Qed.

Lemma gap_step_Permutation l i : sort.gap_step less l i ≡ₚ l.
Proof.
  unfold sort.gap_step.
  destruct (l !! i) as [x|] eqn:Hi; [|done].
  destruct (l !! (i - 6)%nat) as [y|] eqn:Hj; [|done].
  destruct (less x y); [|done]. by apply swap_Permutation.
Qed.

Lemma gap_pass_Permutation l : sort.gap_pass less l ≡ₚ l.
Proof.
  unfold sort.gap_pass. generalize (seq 6 (length l - 6)). intros idx.
  revert l. induction idx as [|i idx IH]; intros l; simpl; [done|].
  by rewrite IH, gap_step_Permutation.
Qed.

End sorters.

(** Both functions keep the promise of [sort.Sort]. *)
Definition insertion_sorter : sort.Sorter :=
  {| sort.Sort := @sort.insertionSort;
     sort.Sort_Permutation := @insertionSort_Permutation;
     sort.Sort_Sorted := @insertionSort_Sorted |}.

Lemma shellSort_Permutation {A} (less : sort.Interface A) l :
  sort.shellSort less l ≡ₚ l.
Proof.
  unfold sort.shellSort.
  by rewrite insertionSort_Permutation, gap_pass_Permutation.
Qed.

Lemma shellSort_Sorted {A} (less : sort.Interface A) l :
  sort.StrictWeakOrder less l →
  Sorted (λ a b, less b a = false) (sort.shellSort less l).
Proof.
  intros [Hasym Htrans]. apply insertionSort_Sorted.
  split; intros *; rewrite !gap_pass_Permutation; eauto.
Qed.

Definition shell_sorter : sort.Sorter :=
  {| sort.Sort := @sort.shellSort;
     sort.Sort_Permutation := @shellSort_Permutation;
     sort.Sort_Sorted := @shellSort_Sorted |}.

(** ** readHistory *)

Lemma Split_no_sep (s : string) (sep : ascii) :
  contains sep s = false → strings.Split s sep = [s].
Proof.
  induction s as [|c s IH]; simpl; [done|].
  rewrite orb_false_iff. intros [Hc Hs].
  rewrite Ascii.eqb_sym, Hc. by rewrite IH.
Qed.

(** The scanner stops at a line that does not fit its buffer: the lines
    from there on are never examined, whatever they hold. *)
Example scanner_gives_up_at_long_line :
  parse_all (bufio.Scanner_lines
               (filler (bufio.MaxScanTokenSize - 1) +:+ nl +:+ "x" +:+ nl))
  = Panic (PanicError ErrSyntax)
  ∧ parse_all (bufio.Scanner_lines
                 (filler bufio.MaxScanTokenSize +:+ nl +:+ "x" +:+ nl))
    = Ok [].
Proof. split; vm_compute; reflexivity. Qed.

(** A line with an empty second field gives a command without a name,
    and a negative count a counter near the top of [uint64]. *)
Example parse_line_corner_cases :
  parse_line ("5" +:+ tab +:+ tab +:+ "x") = Ok (mkCommand "" 5)
  ∧ parse_line ("-1" +:+ tab +:+ "x") = Ok (mkCommand "x" (2 ^ 64 - 1)).
Proof. split; vm_compute; reflexivity. Qed.

(** A line without a tab whose only field parses makes the loop index
    past the end of [s]. *)
Lemma parse_line_no_tab text :
  contains TAB (strings.TrimSpace text) = false →
  (strconv.ParseInt (strings.TrimSpace text)).2 = None →
  parse_line text = Panic IndexOutOfRange.
Proof.
  intros Htab Hparse. unfold parse_line.
  rewrite (Split_no_sep _ _ Htab). simpl.
  destruct (strconv.ParseInt (strings.TrimSpace text)) as [calls err].
  simpl in Hparse. by subst err.
Qed.

Section read.
Context `{sort.Sorter}.

Lemma read_loop_parse_all h history lines :
  read_loop h history lines
  = (cs ← parse_all lines;
     Ok (h ++ cs, history ++ seq (length h) (length cs))).
Proof.
  revert h history. induction lines as [|text lines IH]; intros h history; simpl.
  - by rewrite !app_nil_r.
  - unfold read_line. destruct (parse_line text) as [c|e]; simpl; [|done].
    rewrite IH. destruct (parse_all lines) as [cs|e]; simpl; [|done].
    rewrite length_app. simpl.
    rewrite <- !app_assoc. simpl.
    replace (length h + 1)%nat with (S (length h)) by lia. done.
Qed.

Lemma readHistory_unfold fs path h :
  readHistory fs path h
  = match os.Open fs path with
    | None => Ok (h, [])
    | Some content =>
        cs ← parse_all (bufio.Scanner_lines content);
        Ok (h ++ cs,
            sort.Sort (sort.Reverse (ByScore (h ++ cs)))
                      (seq (length h) (length cs)))
    end.
Proof.
  unfold readHistory. destruct (os.Open fs path) as [content|]; [|done].
  rewrite read_loop_parse_all.
  by destruct (parse_all (bufio.Scanner_lines content)).
Qed.

Lemma parse_all_Ok lines cmds :
  parse_all lines = Ok cmds ↔ Forall2 (λ text c, parse_line text = Ok c) lines cmds.
Proof.
  revert cmds. induction lines as [|text lines IH]; intros cmds; simpl.
  - split; [intros [= <-]; constructor|by inversion 1].
  - destruct (parse_line text) as [c|e] eqn:E; simpl.
    + destruct (parse_all lines) as [cs|e] eqn:E'; simpl.
      * split.
        -- intros [= <-]. constructor; [done|]. by apply IH.
        -- inversion 1 as [|? c' ? cs' Hc Hcs]; subst.
           apply IH in Hcs. congruence.
      * split; [done|].
        inversion 1 as [|? c' ? cs' Hc Hcs]; subst. by apply IH in Hcs.
    + split; [done|]. inversion 1; congruence.
Qed.

Lemma view_fresh (h cs : Heap) :
  view (h ++ cs) (seq (length h) (length cs)) = Some <$> cs.
Proof.
  unfold view. apply list_eq. intros i.
  rewrite !list_lookup_fmap.
  destruct (decide (i < length cs)%nat) as [Hi|Hi].
  - rewrite lookup_seq_lt by done. simpl.
    rewrite lookup_app_r by lia. replace (length h + i - length h)%nat with i by lia.
    by destruct (lookup_lt_is_Some_2 cs i Hi) as [c ->].
  - rewrite lookup_seq_ge by lia. simpl. by rewrite lookup_ge_None_2 by lia.
Qed.

Lemma ByScore_StrictWeakOrder (h cs : Heap) :
  sort.StrictWeakOrder (sort.Reverse (ByScore (h ++ cs)))
                       (seq (length h) (length cs)).
Proof.
  assert (∀ p, p ∈ seq (length h) (length cs) → is_Some ((h ++ cs) !! p)) as Hv.
  { intros p [Hp1 Hp2]%elem_of_seq. apply lookup_lt_is_Some_2.
    rewrite length_app. lia. }
  unfold sort.Reverse, ByScore. split.
  - intros a b [ca ->]%Hv [cb ->]%Hv. lia.
  - intros a b c [ca ->]%Hv [cb ->]%Hv [cc ->]%Hv. lia.
Qed.

Lemma Sorted_Some_inv (R : relation Command) (l : list Command)
    (Q : relation (option Command)) :
  (∀ a b, Q (Some a) (Some b) → R a b) →
  Sorted Q (Some <$> l) → Sorted R l.
Proof.
  intros HQ. induction l as [|a l IH]; simpl; [constructor|].
  inversion 1 as [|? ? Hs Hhd]; subst. constructor; [by apply IH|].
  destruct l; simpl in *; constructor. inversion Hhd; subst. by apply HQ.
Qed.

Lemma read_ranked fs path h content cmds :
  os.Open fs path = Some content →
  Forall2 (λ text c, parse_line text = Ok c) (bufio.Scanner_lines content) cmds →
  ∃ ps sorted,
    readHistory fs path h = Ok (h ++ cmds, ps)
    ∧ view (h ++ cmds) ps = Some <$> sorted
    ∧ sorted ≡ₚ cmds
    ∧ ranked sorted.
Proof.
  intros Hopen Hparse. apply parse_all_Ok in Hparse.
  rewrite readHistory_unfold, Hopen, Hparse. simpl.
  set (less := sort.Reverse (ByScore (h ++ cmds))).
  set (ps := sort.Sort less (seq (length h) (length cmds))).
  pose proof (sort.Sort_Permutation _ less (seq (length h) (length cmds))) as Hperm.
  pose proof (sort.Sort_Sorted _ less _ (ByScore_StrictWeakOrder h cmds)) as Hsorted.
  fold ps in Hperm, Hsorted.
  assert (view (h ++ cmds) ps ≡ₚ Some <$> cmds) as Hview.
  { rewrite <- (view_fresh h cmds). unfold view. by apply fmap_Permutation. }
  apply Permutation_map_inv in Hview as (sorted & Heq & Hp).
  exists ps, sorted. split_and!; [done|done|by symmetry|].
  unfold ranked.
  apply (Sorted_Some_inv _ _ (λ oa ob, match oa, ob with
            | Some a, Some b => (Calls b ≤ Calls a)%Z | _, _ => True end));
    [done|].
  change (map Some sorted) with (Some <$> sorted) in Heq. rewrite <- Heq.
  unfold view. apply Sorted_fmap with (R1 := λ a b, less b a = false); [|done].
  intros p q. unfold less, sort.Reverse, ByScore.
  destruct ((h ++ cmds) !! p), ((h ++ cmds) !! q); try done. lia.
Qed.


Lemma read_missing_file fs path h :
  os.Open fs path = None → readHistory fs path h = Ok (h, []).
Proof. intros Hopen. by rewrite readHistory_unfold, Hopen. Qed.

Lemma parse_line_Panic text e :
  parse_line text = Panic e →
  (strconv.ParseInt (count_field text)).2 ≠ None
  ∨ has_name_field text = false.
Proof.
  unfold parse_line, count_field, has_name_field, index.
  destruct (strings.Split (strings.TrimSpace text) TAB) as [|s0 [|s1 s]];
    simpl; [by right| |].
  - destruct (strconv.ParseInt s0) as [calls [err|]]; simpl; [by left|by right].
  - destruct (strconv.ParseInt s0) as [calls [err|]]; simpl; [by left|done].
Qed.

Lemma parse_line_Ok text c :
  parse_line text = Ok c →
  (strconv.ParseInt (count_field text)).2 = None
  ∧ has_name_field text = true.
Proof.
  unfold parse_line, count_field, has_name_field, index.
  destruct (strings.Split (strings.TrimSpace text) TAB) as [|s0 [|s1 s]];
    simpl; [done| |].
  - by destruct (strconv.ParseInt s0) as [calls [err|]].
  - by destruct (strconv.ParseInt s0) as [calls [err|]].
Qed.

Lemma parse_all_Panic lines :
  (∃ e, parse_all lines = Panic e)
  ↔ Exists (λ text, (strconv.ParseInt (count_field text)).2 ≠ None
                    ∨ has_name_field text = false) lines.
Proof.
  induction lines as [|text lines IH]; simpl.
  - split; [by intros [e ?]|by inversion 1].
  - destruct (parse_line text) as [c|e] eqn:E; simpl.
    + apply parse_line_Ok in E as [E1 E2].
      rewrite Exists_cons, <- IH.
      destruct (parse_all lines) as [cs|e']; simpl.
      * split; [by intros [e ?]|]. intros [[?|?]|[e ?]]; congruence.
      * split; [intros _; right; by exists e'|by exists e'].
    + split; [|by exists e]. intros _. left. by eapply parse_line_Panic.
Qed.

(** [readHistory] panics exactly when, among the lines that the scanner
    delivers, one has a count field that does not parse or has no name
    field at all. *)
Lemma read_aborts_iff fs path h :
  (∃ e, readHistory fs path h = Panic e)
  ↔ ∃ content,
      os.Open fs path = Some content
      ∧ Exists (λ text, (strconv.ParseInt (count_field text)).2 ≠ None
                        ∨ has_name_field text = false)
               (bufio.Scanner_lines content).
Proof.
  rewrite readHistory_unfold.
  destruct (os.Open fs path) as [content|].
  - pose proof (parse_all_Panic (bufio.Scanner_lines content)) as Hiff.
    destruct (parse_all (bufio.Scanner_lines content)) as [cs|e]; simpl.
    + split; [by intros [e ?]|]. intros (c & [= <-] & Hex).
      apply Hiff in Hex as [e ?]. done.
    + split; [|by exists e]. intros _. exists content. split; [done|].
      apply Hiff. by exists e.
  - split; [by intros [e ?]|]. by intros (c & ? & _).
Qed.

(** C3, as amended.  When every line that the scanner delivers parses,
    [read] returns the commands of the file sorted by [Calls] descending:
    the result is a rearrangement of the file's commands in rank order,
    whatever [sort.Sort] does with equal [Calls].  On the content
    "3\tvim\n1\tnano\n" it returns [{vim,3}, {nano,1}]. *)
Theorem read_sorted_descending :
  (∀ fs path h content cmds,
     os.Open fs path = Some content →
     Forall2 (λ text c, parse_line text = Ok c)
             (bufio.Scanner_lines content) cmds →
     ∃ ps sorted,
       readHistory fs path h = Ok (h ++ cmds, ps)
       ∧ view (h ++ cmds) ps = Some <$> sorted
       ∧ sorted ≡ₚ cmds
       ∧ ranked sorted)
  ∧ (∀ fs path h,
       os.Open fs path = Some (record "3" "vim" +:+ record "1" "nano") →
       ∃ ps,
         readHistory fs path h
         = Ok (h ++ [mkCommand "vim" 3; mkCommand "nano" 1], ps)
         ∧ view (h ++ [mkCommand "vim" 3; mkCommand "nano" 1]) ps
           = [Some (mkCommand "vim" 3); Some (mkCommand "nano" 1)]).
Proof.
  split; [exact read_ranked|].
  intros fs path h Hopen.
  destruct (read_ranked fs path h _ [mkCommand "vim" 3; mkCommand "nano" 1] Hopen)
    as (ps & sorted & Hread & Hview & Hperm & Hranked).
  { apply parse_all_Ok. vm_compute. reflexivity. }
  exists ps. split; [done|]. rewrite Hview.
  symmetry in Hperm. apply Permutation_length_2_inv in Hperm as [->| ->]; [done|].
  exfalso. unfold ranked in Hranked.
  apply Sorted_inv in Hranked as [_ Hhd]. apply HdRel_inv in Hhd. simpl in Hhd. lia.
Qed.

(** C9.  The history file "3\n" is a single non-empty line without a tab
    whose count parses; [read] neither returns nor reports a parse
    failure: it panics on the index [s[1]]. *)
Theorem read_index_out_of_range fs path h :
  os.Open fs path = Some ("3" +:+ nl) →
  bufio.Scanner_lines ("3" +:+ nl) = ["3"]
  ∧ contains TAB "3" = false
  ∧ strconv.ParseInt (count_field "3") = (3%Z, None)
  ∧ readHistory fs path h = Panic IndexOutOfRange.
Proof.
  intros Hopen.
  split; [vm_compute; reflexivity|]. split; [vm_compute; reflexivity|].
  split; [vm_compute; reflexivity|].
  rewrite readHistory_unfold, Hopen.
  assert (parse_all (bufio.Scanner_lines ("3" +:+ nl)) = Panic IndexOutOfRange)
    as -> by (vm_compute; reflexivity).
  reflexivity.
Qed.

(** C4, where the code departs from it.  In the history file
    "2\tvim\n7\n" the count field of every line parses as an integer, and
    yet [read] aborts: the second line has no name field. *)
Theorem read_aborts_though_counts_parse h :
  let content := record "2" "vim" +:+ "7" +:+ nl in
  Forall (λ text, (strconv.ParseInt (count_field text)).2 = None)
         (bufio.Scanner_lines content)
  ∧ readHistory (history_fs "history.tsv" content) "history.tsv" h
    = Panic IndexOutOfRange.
Proof.
  intros content. split.
  - assert (bufio.Scanner_lines content = ["2" +:+ tab +:+ "vim"; "7"]) as ->
      by (vm_compute; reflexivity).
    repeat constructor; vm_compute; reflexivity.
  - rewrite readHistory_unfold.
    assert (os.Open (history_fs "history.tsv" content) "history.tsv"
            = Some content) as -> by (vm_compute; reflexivity).
    assert (parse_all (bufio.Scanner_lines content) = Panic IndexOutOfRange)
      as -> by (vm_compute; reflexivity).
    reflexivity.
Qed.

End read.

(** C3 as stated fails.  A Shell pass of gap 6 followed by insertion sort
    keeps the promise of [sort.Sort]; with it, a file of seven lines whose
    first six have [Calls = 1] and whose last has [Calls = 2] comes back
    with the first line moved behind the five that followed it. *)
Lemma read_not_stable : ¬ (∀ S : sort.Sorter, read_is_stable S).
Proof.
  intros Hstable.
  pose (content := record "1" "a" +:+ record "1" "b" +:+ record "1" "c"
                   +:+ record "1" "d" +:+ record "1" "e" +:+ record "1" "f"
                   +:+ record "2" "g").
  pose (cmds := [mkCommand "a" 1; mkCommand "b" 1; mkCommand "c" 1;
                 mkCommand "d" 1; mkCommand "e" 1; mkCommand "f" 1;
                 mkCommand "g" 2]).
  destruct (Hstable shell_sorter (history_fs "history.tsv" content)
              "history.tsv" [] content cmds)
    as (h' & ps & sorted & Hread & Hview & _ & Hties).
  { vm_compute. reflexivity. }
  { vm_compute. reflexivity. }
  assert (@readHistory shell_sorter (history_fs "history.tsv" content)
            "history.tsv" []
          = Ok (cmds, [6; 1; 2; 3; 4; 5; 0]%nat)) as Hrun
    by (vm_compute; reflexivity).
  rewrite Hrun in Hread. injection Hread as <- <-.
  assert (view cmds [6; 1; 2; 3; 4; 5; 0]%nat
          = Some <$> [mkCommand "g" 2; mkCommand "b" 1; mkCommand "c" 1;
                      mkCommand "d" 1; mkCommand "e" 1; mkCommand "f" 1;
                      mkCommand "a" 1]) as Hshown
    by (vm_compute; reflexivity).
  rewrite Hshown in Hview. apply (inj (fmap Some)) in Hview. subst sorted.
  specialize (Hties 1%Z). vm_compute in Hties. discriminate.
Qed.

(** A run of [read_sorted_descending]. *)
Lemma read_sorted_descending_witness :
  ∃ ps,
    @readHistory insertion_sorter
      (history_fs "history.tsv" (record "3" "vim" +:+ record "1" "nano"))
      "history.tsv" []
    = Ok ([mkCommand "vim" 3; mkCommand "nano" 1], ps)
    ∧ view [mkCommand "vim" 3; mkCommand "nano" 1] ps
      = [Some (mkCommand "vim" 3); Some (mkCommand "nano" 1)].
Proof.
  apply (proj2 (@read_sorted_descending insertion_sorter)
           (history_fs "history.tsv" (record "3" "vim" +:+ record "1" "nano"))
           "history.tsv" []).
  vm_compute. reflexivity.
Defined.

(** A run of [read_index_out_of_range]. *)
Lemma read_index_out_of_range_witness :
  bufio.Scanner_lines ("3" +:+ nl) = ["3"]
  ∧ contains TAB "3" = false
  ∧ strconv.ParseInt (count_field "3") = (3%Z, None)
  ∧ @readHistory insertion_sorter (history_fs "history.tsv" ("3" +:+ nl))
      "history.tsv" [] = Panic IndexOutOfRange.
Proof.
  apply (@read_index_out_of_range insertion_sorter
           (history_fs "history.tsv" ("3" +:+ nl)) "history.tsv" []).
  vm_compute. reflexivity.
Defined.

(** ** writeHistory *)

Lemma string_app_assoc (s t u : string) : (s +:+ t) +:+ u = s +:+ (t +:+ u).
Proof.
  induction s as [|a s IH]; [done|].
  change (String a ((s +:+ t) +:+ u) = String a (s +:+ (t +:+ u))).
  by rewrite IH.
Qed.

Lemma string_app_nil_r (s : string) : s +:+ "" = s.
Proof.
  induction s as [|a s IH]; [done|].
  change (String a (s +:+ "") = String a s). by rewrite IH.
Qed.

Lemma render_cons c cmds :
  render (c :: cmds)
  = strconv.FormatUint (Calls c) +:+ tab +:+ Name c +:+ nl +:+ render cmds.
Proof. reflexivity. Qed.

Lemma foldl_write f cmds : foldl write f cmds = f +:+ render cmds.
Proof.
  revert f. induction cmds as [|c cmds IH]; intros f.
  - simpl. by rewrite string_app_nil_r.
  - change (foldl write f (c :: cmds)) with (foldl write (write f c) cmds).
    rewrite IH, render_cons. unfold write. by rewrite !string_app_assoc.
Qed.

Lemma render_app cmds cmds' : render (cmds ++ cmds') = render cmds +:+ render cmds'.
Proof.
  induction cmds as [|c cmds IH]; [done|].
  change ((c :: cmds) ++ cmds') with (c :: (cmds ++ cmds')).
  by rewrite !render_cons, IH, !string_app_assoc.
Qed.

Lemma bump_first_absent last cmds :
  last ∉ Name <$> cmds → bump_first last cmds = cmds.
Proof.
  induction cmds as [|c cmds IH]; simpl; [done|].
  rewrite not_elem_of_cons. intros [Hne Hnot].
  rewrite decide_False by congruence. by rewrite IH.
Qed.

Lemma bump_first_names last cmds :
  Name <$> bump_first last cmds = Name <$> cmds.
Proof.
  induction cmds as [|c cmds IH]; csimpl; [done|].
  case_decide; csimpl; [done|]. by rewrite IH.
Qed.

Lemma bump_first_length last cmds :
  length (bump_first last cmds) = length cmds.
Proof.
  induction cmds as [|c cmds IH]; simpl; [done|].
  case_decide; simpl; [done|]. by rewrite IH.
Qed.

(** [bump_first], position by position: the command at [i] is incremented
    exactly when it is named [last] and no earlier command is. *)
Lemma bump_first_lookup last cmds i c :
  cmds !! i = Some c →
  bump_first last cmds !! i
  = Some (if decide (Name c = last ∧ last ∉ Name <$> take i cmds)
          then mkCommand (Name c) (uint64 (Calls c + 1))
          else c).
Proof.
  revert i. induction cmds as [|c0 cmds IH]; intros i; [done|].
  destruct i as [|i]; simpl.
  - intros [= ->]. destruct (decide (Name c = last)) as [Hn|Hn]; simpl.
    + rewrite decide_True; [done|]. split; [done|]. apply not_elem_of_nil.
    + rewrite decide_False; [done|]. tauto.
  - intros Hi. destruct (decide (Name c0 = last)) as [Hn|Hn]; simpl.
    + rewrite Hi. rewrite decide_False; [done|].
      intros [_ Hnot]. apply Hnot. rewrite <- Hn. apply list_elem_of_here.
    + rewrite (IH _ Hi). f_equal.
      destruct (decide (Name c = last ∧ last ∉ Name <$> take i cmds))
        as [[H1 H2]|Hno].
      * rewrite decide_True; [done|]. split; [done|].
        rewrite not_elem_of_cons. split; [congruence|done].
      * rewrite decide_False; [done|]. intros [H1 H2]. apply Hno.
        split; [done|]. rewrite not_elem_of_cons in H2. tauto.
Qed.

Lemma uint64_increment (n : Z) :
  (0 ≤ n < 2 ^ 64 - 1)%Z → uint64 (n + 1) = (n + 1)%Z.
Proof. intros Hn. unfold uint64. apply Z.mod_small. lia. Qed.

Lemma view_cons_inv (h : list Command) p ps cmds :
  view h (p :: ps) = Some <$> cmds →
  ∃ c cmds', cmds = c :: cmds' ∧ h !! p = Some c ∧ view h ps = Some <$> cmds'.
Proof.
  destruct cmds as [|c cmds']; [done|]. simpl. intros [= Hp Hps].
  by exists c, cmds'.
Qed.

Lemma view_insert_fresh (h : list Command) p c ps :
  p ∉ ps → view (<[p := c]> h) ps = view h ps.
Proof.
  intros Hp. unfold view. apply list_fmap_ext. intros i q Hq.
  apply list_lookup_insert_ne. intros ->. apply Hp.
  by eapply list_elem_of_lookup_2.
Qed.

Lemma view_frame (h h' : list Command) ps :
  (∀ q, q ∈ ps → h' !! q = h !! q) → view h' ps = view h ps.
Proof.
  intros Hq. unfold view. apply list_fmap_ext. intros i q Hi.
  apply Hq. by eapply list_elem_of_lookup_2.
Qed.

(** Once the match target is cleared, the loop only writes. *)
Lemma write_loop_cleared (h : list Command) f ps cmds :
  view h ps = Some <$> cmds →
  Forall (λ c, Name c ≠ "") cmds →
  write_loop h "" f ps = Ok (h, "", f +:+ render cmds).
Proof.
  revert f cmds. induction ps as [|p ps IH]; intros f cmds Hview Hnames.
  - destruct cmds; [|done]. simpl. by rewrite string_app_nil_r.
  - apply view_cons_inv in Hview as (c & cmds' & -> & Hp & Hview).
    apply Forall_cons in Hnames as [Hc Hnames].
    simpl. unfold deref. rewrite Hp. simpl.
    rewrite decide_False by done.
    rewrite (IH _ cmds') by done.
    rewrite ?render_cons. unfold write. by rewrite !string_app_assoc.
Qed.

Lemma write_loop_spec (h : list Command) last f ps cmds :
  view h ps = Some <$> cmds →
  NoDup ps →
  Forall (λ c, Name c ≠ "") cmds →
  ∃ h',
    write_loop h last f ps
    = Ok (h', if decide (last ∈ Name <$> cmds) then "" else last,
          f +:+ render (bump_first last cmds))
    ∧ view h' ps = Some <$> bump_first last cmds
    ∧ length h' = length h
    ∧ ∀ q, q ∉ ps → h' !! q = h !! q.
Proof.
  revert f cmds. induction ps as [|p ps IH]; intros f cmds Hview Hnodup Hnames.
  - destruct cmds; [|done]. exists h. simpl.
    rewrite string_app_nil_r. split_and!; try done.
  - apply view_cons_inv in Hview as (c & cmds' & -> & Hp & Hview).
    apply NoDup_cons in Hnodup as [Hfresh Hnodup].
    apply Forall_cons in Hnames as [Hc Hnames].
    simpl. unfold deref. rewrite Hp. simpl.
    destruct (decide (Name c = last)) as [Heq|Hne].
    + set (c' := mkCommand (Name c) (uint64 (Calls c + 1))).
      exists (<[p := c']> h).
      rewrite (write_loop_cleared _ _ _ cmds');
        [|by rewrite view_insert_fresh|done].
      rewrite decide_True by (rewrite Heq; apply list_elem_of_here).
      rewrite ?render_cons. unfold write. rewrite !string_app_assoc.
      split_and!; [done| |by rewrite length_insert|].
      * simpl. rewrite list_lookup_insert_eq by (by eapply lookup_lt_Some).
        by rewrite view_insert_fresh, Hview.
      * intros q Hq. apply list_lookup_insert_ne. intros ->.
        apply Hq. apply list_elem_of_here.
    + destruct (IH (write f c) cmds' Hview Hnodup Hnames)
        as (h' & Hloop & Hview' & Hlen & Hframe).
      exists h'. rewrite Hloop.
      rewrite ?render_cons. unfold write. rewrite !string_app_assoc.
      split_and!; [|  |done|].
      * do 2 f_equal. f_equal.
        destruct (decide (last ∈ Name <$> cmds')) as [Hin|Hnin].
        -- rewrite decide_True; [done|]. by apply list_elem_of_further.
        -- rewrite decide_False; [done|]. rewrite not_elem_of_cons. split; [congruence|done].
      * simpl. rewrite Hframe by done. by rewrite Hp, Hview'.
      * intros q Hq. apply Hframe. rewrite not_elem_of_cons in Hq. tauto.
Qed.


Lemma spec_write_render last cmds :
  last ≠ "" →
  spec_write cmds last
  = render (bump_first last cmds)
    +:+ (if decide (last ∈ Name <$> cmds) then ""
         else render [mkCommand last 1]).
Proof.
  intros _. unfold spec_write. case_decide as Hin.
  - by rewrite string_app_nil_r.
  - by rewrite render_app, bump_first_absent.
Qed.

Lemma writeHistory_spec fs path (h : list Command) ps cmds last :
  path ∉ fs_denied fs →
  view h ps = Some <$> cmds →
  NoDup ps →
  Forall (λ c, Name c ≠ "") cmds →
  ∃ h',
    writeHistory fs path h ps last
    = Ok (os.store fs path
            (render (bump_first last cmds)
             +:+ (if decide (last ∈ Name <$> cmds) then ""
                  else if decide (last ≠ "") then render [mkCommand last 1]
                  else "")), h')
    ∧ view h' ps = Some <$> bump_first last cmds
    ∧ length h' = length h
    ∧ ∀ q, q ∉ ps → h' !! q = h !! q.
Proof.
  intros Hcreate Hview Hnodup Hnames.
  destruct (write_loop_spec h last "" ps cmds Hview Hnodup Hnames)
    as (h' & Hloop & Hview' & Hlen & Hframe).
  exists h'. split; [|done].
  unfold writeHistory, os.Create. rewrite decide_False by done. simpl.
  rewrite Hloop. simpl. do 3 f_equal.
  destruct (decide (last ∈ Name <$> cmds)) as [Hin|Hnin].
  - rewrite decide_False by (intros Hne; by apply Hne).
    by rewrite string_app_nil_r.
  - destruct (decide (last ≠ "")) as [Hne|Heq]; [|by rewrite string_app_nil_r].
    unfold write. simpl. by rewrite !string_app_assoc.
Qed.

(** C2, as amended.  For every sequence of distinct commands with
    non-empty names, and every non-empty selected name for which the file
    can be created: [write] goes through the commands in input order, adds
    one to the counter of the first command whose name is the selected one
    and to no other, writes every command as "Calls\tName\n" in that
    order, and when no command matched appends a record with [Calls = 1]
    for the selected name after all others; nothing is sorted.  With
    [{emacs,3}, {vim,2}] and "vim" the file is "3\temacs\n3\tvim\n"; the
    next write, with the same commands and "nano", gives
    "3\temacs\n3\tvim\n1\tnano\n". *)
Theorem write_in_input_order :
  (∀ fs path (h : list Command) ps cmds last,
     path ∉ fs_denied fs →
     view h ps = Some <$> cmds →
     NoDup ps →
     Forall (λ c, Name c ≠ "") cmds →
     last ≠ "" →
     ∃ h',
       writeHistory fs path h ps last
       = Ok (os.store fs path (spec_write cmds last), h')
       ∧ view h' ps = Some <$> bump_first last cmds)
  ∧ writeHistory (history_fs "history.tsv" "") "history.tsv"
      [mkCommand "emacs" 3; mkCommand "vim" 2] [0; 1]%nat "vim"
    = Ok (history_fs "history.tsv" (record "3" "emacs" +:+ record "3" "vim"),
          [mkCommand "emacs" 3; mkCommand "vim" 3])
  ∧ writeHistory
      (history_fs "history.tsv" (record "3" "emacs" +:+ record "3" "vim"))
      "history.tsv" [mkCommand "emacs" 3; mkCommand "vim" 3] [0; 1]%nat "nano"
    = Ok (history_fs "history.tsv"
            (record "3" "emacs" +:+ record "3" "vim" +:+ record "1" "nano"),
          [mkCommand "emacs" 3; mkCommand "vim" 3]).
Proof.
  split; [|split; vm_compute; reflexivity].
  intros fs path h ps cmds last Hcreate Hview Hnodup Hnames Hlast.
  destruct (writeHistory_spec fs path h ps cmds last Hcreate Hview Hnodup Hnames)
    as (h' & Hwrite & Hview' & _).
  exists h'. split; [|done]. rewrite Hwrite, spec_write_render by done.
  by rewrite (decide_True _ _ Hlast).
Qed.

(** A run of [write_in_input_order]. *)
Lemma write_in_input_order_witness :
  ∃ h',
    writeHistory (history_fs "history.tsv" "") "history.tsv"
      [mkCommand "emacs" 3; mkCommand "vim" 2] [0; 1]%nat "vim"
    = Ok (os.store (history_fs "history.tsv" "") "history.tsv"
            (spec_write [mkCommand "emacs" 3; mkCommand "vim" 2] "vim"), h')
    ∧ view h' [0; 1]%nat
      = Some <$> bump_first "vim" [mkCommand "emacs" 3; mkCommand "vim" 2].
Proof.
  apply (proj1 write_in_input_order); [| |compute_done|compute_done|done].
  - simpl. apply not_elem_of_empty.
  - reflexivity.
Defined.

(** With the empty name and no commands, [write] leaves the file empty:
    under the guard [lastCommand != ""] nothing is appended.  [main] does
    not pass the empty name. *)
Example write_empty_selection_appends_nothing :
  writeHistory (history_fs "history.tsv" "") "history.tsv" [] [] ""
  = Ok (history_fs "history.tsv" "", []).
Proof. vm_compute. reflexivity. Qed.

(** C2 as stated fails, on a history that [readHistory] returns.  The
    file "7\tvim\n5\t\tx\n" is read as [{vim,7}, {"",5}]: the second
    field of its second line is empty.  [write] with "vim" selected adds
    one to "vim", clears the match target to the empty string, and then
    adds one to the entry without a name as well: the file is
    "8\tvim\n6\t\n", where the specification has "8\tvim\n5\t\n". *)
Lemma write_bumps_entry_after_match :
  @readHistory insertion_sorter
    (history_fs "history.tsv" (record "7" "vim" +:+ record "5" (tab +:+ "x")))
    "history.tsv" []
  = Ok ([mkCommand "vim" 7; mkCommand "" 5], [0; 1]%nat)
  ∧ writeHistory (history_fs "history.tsv" "") "history.tsv"
      [mkCommand "vim" 7; mkCommand "" 5] [0; 1]%nat "vim"
    = Ok (history_fs "history.tsv" (record "8" "vim" +:+ record "6" ""),
          [mkCommand "vim" 8; mkCommand "" 6])
  ∧ spec_write [mkCommand "vim" 7; mkCommand "" 5] "vim"
    = record "8" "vim" +:+ record "5" ""
  ∧ ¬ write_as_specified.
Proof.
  split_and!; [vm_compute; reflexivity..|].
  intros Hspec.
  destruct (Hspec (history_fs "history.tsv" "") "history.tsv"
              [mkCommand "vim" 7; mkCommand "" 5] [0; 1]%nat
              [mkCommand "vim" 7; mkCommand "" 5] "vim")
    as (h' & Hwrite); [apply not_elem_of_empty|reflexivity|compute_done|].
  assert (os.Open (os.store (history_fs "history.tsv" "") "history.tsv"
                     (spec_write [mkCommand "vim" 7; mkCommand "" 5] "vim"))
                  "history.tsv"
          = os.Open (history_fs "history.tsv"
                       (record "8" "vim" +:+ record "6" "")) "history.tsv")
    as Heq.
  { vm_compute in Hwrite. injection Hwrite as Hfs _.
    vm_compute. by rewrite Hfs. }
  vm_compute in Heq. discriminate.
Qed.

(** Position by position, [write] leaves every command in place, adds one
    to the counter of the first command named [last] and changes no other
    counter and no name. *)
Lemma view_bump_first_lookup (h' : list Command) ps cmds last i c :
  view h' ps = Some <$> bump_first last cmds →
  cmds !! i = Some c →
  ∃ p, ps !! i = Some p
    ∧ h' !! p
      = Some (if decide (Name c = last ∧ last ∉ Name <$> take i cmds)
              then mkCommand (Name c) (uint64 (Calls c + 1))
              else c).
Proof.
  intros Hview Hi.
  pose proof (bump_first_lookup last cmds i c Hi) as Hb.
  assert (view h' ps !! i = Some (Some (if decide (Name c = last ∧ last ∉ Name <$> take i cmds)
              then mkCommand (Name c) (uint64 (Calls c + 1))
              else c))) as Hv.
  { by rewrite Hview, list_lookup_fmap, Hb. }
  unfold view in Hv. rewrite list_lookup_fmap in Hv.
  destruct (ps !! i) as [p|]; [|done]. exists p. split; [done|].
  by injection Hv.
Qed.

(** C10, as amended.  [write] updates the commands of its caller in
    place.  When the commands are distinct objects with non-empty names
    and the file can be created, then after the call the first command
    whose name is the selected one has its counter increased by one (as a
    [uint64]: modulo 2^64, see [uint64_increment]), every other command of
    the sequence has its name and counter unchanged, and so has every
    object outside the sequence; a second call with the same sequence
    starts from the incremented value. *)
Theorem write_mutates_in_place :
  ∀ fs path (h : list Command) ps cmds last,
    path ∉ fs_denied fs →
    view h ps = Some <$> cmds →
    NoDup ps →
    Forall (λ c, Name c ≠ "") cmds →
    ∃ fs1 h1 fs2 h2,
      writeHistory fs path h ps last = Ok (fs1, h1)
      ∧ view h1 ps = Some <$> bump_first last cmds
      ∧ (∀ i c, cmds !! i = Some c →
           ∃ p, ps !! i = Some p
             ∧ h1 !! p
               = Some (if decide (Name c = last ∧ last ∉ Name <$> take i cmds)
                       then mkCommand (Name c) (uint64 (Calls c + 1))
                       else c))
      ∧ length h1 = length h
      ∧ (∀ q, q ∉ ps → h1 !! q = h !! q)
      ∧ writeHistory fs1 path h1 ps last = Ok (fs2, h2)
      ∧ view h2 ps = Some <$> bump_first last (bump_first last cmds).
Proof.
  intros fs path h ps cmds last Hcreate Hview Hnodup Hnames.
  destruct (writeHistory_spec fs path h ps cmds last Hcreate Hview Hnodup Hnames)
    as (h1 & Hwrite1 & Hview1 & Hlen1 & Hframe1).
  assert (Forall (λ c, Name c ≠ "") (bump_first last cmds)) as Hnames1.
  { apply Forall_fmap with (f := Name) (P := λ n, n ≠ "").
    rewrite bump_first_names. by apply Forall_fmap. }
  match type of Hwrite1 with _ = Ok (?fs1, _) =>
    destruct (writeHistory_spec fs1 path h1 ps _ last Hcreate Hview1 Hnodup Hnames1)
      as (h2 & Hwrite2 & Hview2 & _);
    exists fs1, h1; eexists _, h2
  end.
  split_and!; try done.
  intros i c Hi. by eapply view_bump_first_lookup.
Qed.

(** A run of [write_mutates_in_place]. *)
Lemma write_mutates_in_place_witness :
  ∃ fs1 h1 fs2 h2,
    writeHistory (history_fs "history.tsv" "") "history.tsv"
      [mkCommand "emacs" 3; mkCommand "vim" 2] [0; 1]%nat "vim" = Ok (fs1, h1)
    ∧ view h1 [0; 1]%nat
      = Some <$> bump_first "vim" [mkCommand "emacs" 3; mkCommand "vim" 2]
    ∧ (∀ i c, [mkCommand "emacs" 3; mkCommand "vim" 2] !! i = Some c →
         ∃ p, [0; 1]%nat !! i = Some p
           ∧ h1 !! p
             = Some (if decide (Name c = "vim"
                                ∧ "vim" ∉ Name <$> take i [mkCommand "emacs" 3;
                                                           mkCommand "vim" 2])
                     then mkCommand (Name c) (uint64 (Calls c + 1))
                     else c))
    ∧ length h1 = 2%nat
    ∧ (∀ q, q ∉ [0; 1]%nat → h1 !! q = [mkCommand "emacs" 3; mkCommand "vim" 2] !! q)
    ∧ writeHistory fs1 "history.tsv" h1 [0; 1]%nat "vim" = Ok (fs2, h2)
    ∧ view h2 [0; 1]%nat
      = Some <$> bump_first "vim"
                   (bump_first "vim" [mkCommand "emacs" 3; mkCommand "vim" 2]).
Proof.
  apply (write_mutates_in_place (history_fs "history.tsv" "") "history.tsv"
           [mkCommand "emacs" 3; mkCommand "vim" 2] [0; 1]%nat
           [mkCommand "emacs" 3; mkCommand "vim" 2] "vim");
    [| |compute_done|compute_done].
  - simpl. apply not_elem_of_empty.
  - reflexivity.
Defined.

(** C10 as stated fails: once the first match has cleared the match
    target, a later command whose name is empty is incremented too. *)
Lemma write_bumps_unnamed_command : ¬ write_bumps_first_match_only.
Proof.
  intros Hclaim.
  specialize (Hclaim (history_fs "history.tsv" "")
                (history_fs "history.tsv" (record "3" "vim" +:+ record "6" ""))
                "history.tsv"
                [mkCommand "vim" 2; mkCommand "" 5]
                [mkCommand "vim" 3; mkCommand "" 6]
                [0; 1]%nat [mkCommand "vim" 2; mkCommand "" 5] "vim").
  assert (Some <$> [mkCommand "vim" 3; mkCommand "" 6]
          = Some <$> [mkCommand "vim" 3; mkCommand "" 5]) as Heq.
  { apply Hclaim; [reflexivity|compute_done|vm_compute; reflexivity]. }
  discriminate.
Qed.

(** The counter is a [uint64]: at its maximum, one more launch gives 0. *)
Example write_wraps_counter :
  writeHistory (history_fs "history.tsv" "") "history.tsv"
    [mkCommand "vim" (2 ^ 64 - 1)] [0%nat] "vim"
  = Ok (history_fs "history.tsv" (record "0" "vim"), [mkCommand "vim" 0]).
Proof. vm_compute. reflexivity. Qed.

(** The caller never passes the empty name. *)
Lemma main_guards_empty_selection LookPath fs historyPath (h : list Command) history :
  main_selected LookPath fs historyPath h history "" = Ok (fs, h).
Proof. reflexivity. Qed.

(** ** fetchExecutables *)

Lemma fetch_loop (files : list FileInfo) (out : list string) :
  foldl (λ out f, if executable f then out ++ [fi_Name f] else out) out files
  = out ++ (fi_Name <$> filter (λ f, Z.land (fi_Mode f) mode_0111 ≠ 0%Z) files).
Proof.
  revert out. induction files as [|f files IH]; intros out; simpl.
  - by rewrite app_nil_r.
  - rewrite IH. unfold executable.
    destruct (Z.eqb_spec (Z.land (fi_Mode f) mode_0111) 0) as [Heq|Hne]; simpl.
    + by rewrite filter_cons_False by (intros Hn; by apply Hn).
    + rewrite filter_cons_True by done. csimpl. by rewrite <- app_assoc.
Qed.

Lemma testbit_0111 (n : Z) :
  Z.testbit mode_0111 n = true ↔ n = 0%Z ∨ n = 3%Z ∨ n = 6%Z.
Proof.
  split.
  - intros Hbit.
    destruct (Z.lt_ge_cases n 0) as [Hneg|Hpos].
    { by rewrite Z.testbit_neg_r in Hbit. }
    destruct (Z.lt_ge_cases n 7) as [Hlt|Hge].
    + assert (n = 0 ∨ n = 1 ∨ n = 2 ∨ n = 3 ∨ n = 4 ∨ n = 5 ∨ n = 6)%Z
        as Hcases by lia.
      destruct Hcases as [->|[->|[->|[->|[->|[->| ->]]]]]];
        try discriminate Hbit; auto.
    + rewrite Z.bits_above_log2 in Hbit; [done|done|].
      change (Z.log2 mode_0111) with 6%Z. lia.
  - by intros [->|[->| ->]].
Qed.

(** [mode & 0111 != 0]: an execute bit of the owner, the group or the
    others is set. *)
Lemma land_0111 (mode : Z) :
  Z.land mode mode_0111 ≠ 0%Z
  ↔ Z.testbit mode 0 = true ∨ Z.testbit mode 3 = true ∨ Z.testbit mode 6 = true.
Proof.
  split.
  - intros Hne.
    destruct (Z.testbit mode 0) eqn:H0; [by left|].
    destruct (Z.testbit mode 3) eqn:H3; [by right; left|].
    destruct (Z.testbit mode 6) eqn:H6; [by right; right|].
    exfalso. apply Hne. apply Z.bits_inj'. intros n Hn.
    rewrite Z.land_spec, Z.bits_0.
    destruct (Z.testbit mode_0111 n) eqn:Hbit; [|by rewrite andb_false_r].
    apply testbit_0111 in Hbit as [->|[->| ->]]; by rewrite ?H0, ?H3, ?H6.
  - intros Hbits Hzero.
    assert (∀ n, Z.testbit mode n && Z.testbit mode_0111 n = false) as Hall.
    { intros n. by rewrite <- Z.land_spec, Hzero, Z.bits_0. }
    destruct Hbits as [Hb|[Hb|Hb]].
    + specialize (Hall 0%Z). by rewrite Hb in Hall.
    + specialize (Hall 3%Z). by rewrite Hb in Hall.
    + specialize (Hall 6%Z). by rewrite Hb in Hall.
Qed.

(** C6.  [DirectoryScanner] emits, in the order of the listing, the
    names of the entries of the directory whose mode has an execute bit
    set, [mode & 0111 != 0], that is bit 0, 3 or 6: others, group, owner;
    and nothing else.  A directory that cannot be read gives the empty
    sequence; no error comes out.  Modes 0111, 0666 and 0744 give the
    first and the third entry. *)
Theorem fetch_lists_executables :
  (∀ fs dir,
     fetchExecutables fs dir
     = match fs_dirs fs !! dir with
       | Some files =>
           fi_Name <$> filter (λ f, Z.land (fi_Mode f) mode_0111 ≠ 0%Z) files
       | None => []
       end)
  ∧ (∀ mode : Z,
       Z.land mode mode_0111 ≠ 0%Z
       ↔ Z.testbit mode 0 = true ∨ Z.testbit mode 3 = true
         ∨ Z.testbit mode 6 = true)
  ∧ fetchExecutables
      (mkFileSystem ∅ {[ "dir" := [mkFileInfo "emacs" mode_0111;
                                   mkFileInfo "nano" (6 * 64 + 6 * 8 + 6);
                                   mkFileInfo "vim" (7 * 64 + 4 * 8 + 4)] ]} ∅)
      "dir"
    = ["emacs"; "vim"].
Proof.
  split; [|split; [exact land_0111|vm_compute; reflexivity]].
  intros fs dir. unfold fetchExecutables, ioutil.ReadDir.
  destruct (fs_dirs fs !! dir) as [files|]; [|done].
  by rewrite fetch_loop.
Qed.

(** ** launchCommand *)

Lemma SplitN2_no_sep (s : string) (sep : ascii) :
  contains sep s = false → strings.SplitN2 s sep = [s].
Proof.
  induction s as [|c s IH]; simpl; [done|].
  rewrite orb_false_iff. intros [Hc Hs].
  rewrite Ascii.eqb_sym, Hc. by rewrite IH.
Qed.

Lemma SplitN2_cut (name rest : string) (sep : ascii) :
  contains sep name = false →
  strings.SplitN2 (name +:+ String sep rest) sep = [name; rest].
Proof.
  induction name as [|c name IH]; simpl.
  - intros _. change ("" +:+ String sep rest) with (String sep rest).
    simpl. by rewrite Ascii.eqb_refl.
  - rewrite orb_false_iff. intros [Hc Hs].
    change (String c name +:+ String sep rest)
      with (String c (name +:+ String sep rest)).
    simpl. rewrite Ascii.eqb_sym, Hc. by rewrite IH.
Qed.

(** C8, as amended.  The launch step cuts the selected line at its first
    space character: what precedes it is the name of the executable and
    what follows it, further spaces included, is the single argument; a
    line without a space is the name alone, with no argument.  The name is
    resolved through [exec.LookPath]; when that fails the step panics. *)
Theorem launch_cuts_at_first_space :
  (∀ LookPath name rest,
     contains SP name = false →
     launchCommand LookPath (name +:+ String SP rest)
     = match LookPath name with
       | Some path => Ok (mkCmd path [path; rest])
       | None => Panic (PanicError ErrNotFound)
       end)
  ∧ (∀ LookPath line,
       contains SP line = false →
       launchCommand LookPath line
       = match LookPath line with
         | Some path => Ok (mkCmd path [path])
         | None => Panic (PanicError ErrNotFound)
         end)
  ∧ launchCommand echo_only "echo 'hello, world'"
    = Ok (mkCmd "/bin/echo" ["/bin/echo"; "'hello, world'"])
  ∧ launchCommand echo_only "bogus_cmd" = Panic (PanicError ErrNotFound).
Proof.
  split_and!; [| |vm_compute; reflexivity..].
  - intros LookPath name rest Hname. unfold launchCommand.
    rewrite SplitN2_cut by done. simpl. unfold exec_LookPath.
    by destruct (LookPath name).
  - intros LookPath line Hline. unfold launchCommand.
    rewrite SplitN2_no_sep by done. simpl. unfold exec_LookPath.
    by destruct (LookPath line).
Qed.

(** A run of [launch_cuts_at_first_space]. *)
Lemma launch_cuts_at_first_space_witness :
  launchCommand echo_only ("echo" +:+ String SP " hi")
  = match echo_only "echo" with
    | Some path => Ok (mkCmd path [path; " hi"])
    | None => Panic (PanicError ErrNotFound)
    end.
Proof.
  apply (proj1 launch_cuts_at_first_space echo_only "echo" " hi").
  reflexivity.
Defined.

(** C8 as stated fails: of two spaces after the name, the second stays in
    the argument. *)
Lemma launch_keeps_second_space :
  ¬ (∀ LookPath line, launchCommand LookPath line = spec_launch LookPath line).
Proof.
  intros Hclaim. specialize (Hclaim echo_only "echo  hi").
  vm_compute in Hclaim. discriminate.
Qed.

(** ** scanPath *)

Section scan_facts.
Import ScanPath.

Lemma Strings_Permutation (a b : list string) :
  a ≡ₚ b → sort.Strings a = sort.Strings b.
Proof.
  intros Hab. unfold sort.Strings.
  apply (Sorted_unique String.le).
  - apply Sorted_merge_sort. apply _.
  - apply Sorted_merge_sort. apply _.
  - by rewrite !merge_sort_Permutation.
Qed.

Lemma concat_insert {A} (ls : list (list A)) i x l :
  ls !! i = Some (x :: l) →
  concat ls ≡ₚ x :: concat (<[i := l]> ls).
Proof.
  intros Hi.
  rewrite <- (take_drop_middle ls i (x :: l) Hi) at 1.
  rewrite insert_take_drop by (by eapply lookup_lt_Some).
  rewrite !concat_app. simpl. solve_Permutation.
Qed.

(** An uninterrupted append moves one item from the inbox of its
    goroutine to the shared slice. *)
Lemma append_atomic i st st' st'' :
  quiet st → step i st = Some st' → step i st' = Some st'' →
  quiet st''
  ∧ commands st'' ++ pending st'' ≡ₚ commands st ++ pending st.
Proof.
  intros Hquiet Hstep1 Hstep2. unfold step in Hstep1.
  destruct (workers st !! i) as [w|] eqn:Hw; [|done].
  assert (loaded w = None) as Hl.
  { eapply (proj1 (Forall_forall _ _) Hquiet). by eapply list_elem_of_lookup_2. }
  rewrite Hl in Hstep1.
  destruct (inbox w) as [|item rest] eqn:Hinbox; [done|].
  injection Hstep1 as <-.
  unfold step in Hstep2. simpl in Hstep2.
  rewrite list_lookup_insert_eq in Hstep2 by (by eapply lookup_lt_Some).
  simpl in Hstep2. injection Hstep2 as <-. simpl.
  rewrite list_insert_insert_eq. split.
  - unfold quiet. simpl. apply Forall_insert; done.
  - unfold pending. simpl. rewrite list_fmap_insert. simpl.
    assert ((inbox <$> workers st) !! i = Some (item :: rest)) as Hi.
    { by rewrite list_lookup_fmap, Hw, <- Hinbox. }
    rewrite (concat_insert _ i item rest Hi). solve_Permutation.
Qed.

Lemma run_serial order st st' :
  quiet st → run (serial order) st = Some st' →
  quiet st' ∧ commands st' ++ pending st' ≡ₚ commands st ++ pending st.
Proof.
  revert st. induction order as [|i order IH]; intros st Hquiet Hrun.
  - injection Hrun as <-. done.
  - change (serial (i :: order)) with (i :: i :: serial order) in Hrun.
    simpl in Hrun.
    destruct (step i st) as [st1|] eqn:H1; [|done].
    destruct (step i st1) as [st2|] eqn:H2; [|done].
    destruct (append_atomic i st st1 st2 Hquiet H1 H2) as [Hq Hp].
    destruct (IH st2 Hq Hrun) as [Hq' Hp']. split; [done|].
    by rewrite Hp', Hp.
Qed.

Lemma finished_pending st : finished st = true → pending st = [].
Proof.
  unfold finished, pending.
  induction (workers st) as [|w ws IH]; csimpl; [done|].
  rewrite andb_true_iff. intros [Hw Hws]. rewrite (IH Hws).
  unfold called_Done in Hw. destruct (loaded w); [done|].
  by destruct (inbox w).
Qed.

Lemma init_pending fs path : pending (init fs path) = discovered fs path.
Proof.
  unfold pending, init, discovered. simpl. by rewrite <- list_fmap_compose.
Qed.

Lemma init_quiet fs path : quiet (init fs path).
Proof. unfold quiet, init. simpl. by apply Forall_fmap, Forall_true. Qed.

(** When no append is interrupted, [scanPath] emits everything that the
    directories hold, sorted. *)
Lemma scanPath_serial fs path order out :
  scanPath fs path (serial order) = Some out →
  out = sort.Strings (discovered fs path).
Proof.
  unfold scanPath.
  destruct (run (serial order) (init fs path)) as [st|] eqn:Hrun; [|done].
  destruct (finished st) eqn:Hfin; [|done]. intros [= <-].
  destruct (run_serial order _ _ (init_quiet fs path) Hrun) as [_ Hp].
  rewrite (finished_pending st Hfin), init_pending, app_nil_r in Hp. simpl in Hp.
  by apply Strings_Permutation.
Qed.

(** Some goroutine can take a step until all of them are done: the run
    cannot get stuck before [group.Wait] returns. *)
Lemma scanPath_progress st :
  finished st = false → ∃ i st', step i st = Some st'.
Proof.
  unfold finished. intros Hfin.
  assert (∃ i w, workers st !! i = Some w ∧ called_Done w = false) as (i & w & Hi & Hw).
  { induction (workers st) as [|w ws IH]; [done|]. simpl in Hfin.
    destruct (called_Done w) eqn:Hw.
    - destruct (IH Hfin) as (i & w' & Hi & Hw'). by exists (S i), w'.
    - by exists 0%nat, w. }
  exists i. unfold step. rewrite Hi. unfold called_Done in Hw.
  destruct (loaded w) as [[snapshot item]|]; [by eexists|].
  destruct (inbox w); [done|by eexists].
Qed.

Lemma sum_list_insert (ns : list nat) i n m :
  ns !! i = Some n →
  (sum_list (<[i := m]> ns) + n = sum_list ns + m)%nat.
Proof.
  intros Hi.
  rewrite <- (take_drop_middle ns i n Hi) at 2.
  rewrite insert_take_drop by (by eapply lookup_lt_Some).
  rewrite !sum_list_with_app. simpl. unfold id. lia.
Qed.

(** Every step uses one up: every run ends. *)
Lemma scanPath_step_decreases i st st' :
  step i st = Some st' → (steps_left st' < steps_left st)%nat.
Proof.
  unfold step, steps_left. intros Hstep.
  destruct (workers st !! i) as [w|] eqn:Hw; [|done].
  assert ((remaining <$> workers st) !! i = Some (remaining w)) as Hi
    by (by rewrite list_lookup_fmap, Hw).
  destruct (loaded w) as [[snapshot item]|] eqn:Hl.
  - injection Hstep as <-. simpl. rewrite list_fmap_insert.
    pose proof (sum_list_insert _ i _ (remaining (mkWorker (inbox w) None)) Hi).
    unfold remaining in *. rewrite Hl in *. simpl in *. lia.
  - destruct (inbox w) as [|item rest] eqn:Hinbox; [done|].
    injection Hstep as <-. simpl. rewrite list_fmap_insert.
    pose proof (sum_list_insert _ i _
      (remaining (mkWorker rest (Some (commands st, item)))) Hi).
    unfold remaining in *. rewrite Hl, Hinbox in *. simpl in *. lia.
Qed.

Lemma quiet_step_twice st :
  quiet st → finished st = false →
  ∃ i st1 st2, step i st = Some st1 ∧ step i st1 = Some st2.
Proof.
  unfold finished. intros Hquiet Hfin.
  assert (∃ i w, workers st !! i = Some w ∧ called_Done w = false)
    as (i & w & Hi & Hw).
  { clear Hquiet. induction (workers st) as [|w ws IH]; [done|]. simpl in Hfin.
    destruct (called_Done w) eqn:Hw.
    - destruct (IH Hfin) as (i & w' & Hi & Hw'). by exists (S i), w'.
    - by exists 0%nat, w. }
  assert (loaded w = None) as Hl.
  { eapply (proj1 (Forall_forall _ _) Hquiet). by eapply list_elem_of_lookup_2. }
  unfold called_Done in Hw. rewrite Hl in Hw.
  destruct (inbox w) as [|item rest] eqn:Hinbox; [done|].
  exists i. unfold step. rewrite Hi, Hl, Hinbox. eexists. eexists. split; [done|].
  simpl. rewrite list_lookup_insert_eq by (by eapply lookup_lt_Some). done.
Qed.

Lemma serial_run_exists_from (n : nat) st :
  (steps_left st ≤ n)%nat → quiet st →
  ∃ order st', run (serial order) st = Some st' ∧ finished st' = true.
Proof.
  revert st. induction n as [|n IH]; intros st Hn Hquiet.
  - destruct (finished st) eqn:Hfin; [by exists [], st|].
    destruct (quiet_step_twice st Hquiet Hfin) as (i & st1 & st2 & H1 & H2).
    apply scanPath_step_decreases in H1. lia.
  - destruct (finished st) eqn:Hfin; [by exists [], st|].
    destruct (quiet_step_twice st Hquiet Hfin) as (i & st1 & st2 & H1 & H2).
    destruct (append_atomic i st st1 st2 Hquiet H1 H2) as [Hq _].
    pose proof (scanPath_step_decreases _ _ _ H1).
    pose proof (scanPath_step_decreases _ _ _ H2).
    destruct (IH st2) as (order & st' & Hrun & Hfin'); [lia|done|].
    exists (i :: order), st'. split; [|done].
    change (serial (i :: order)) with (i :: i :: serial order).
    simpl. by rewrite H1, H2.
Qed.

(** Some run without interrupted appends is complete, and emits everything
    that the directories hold, sorted. *)
Lemma scanPath_serial_exists fs path :
  ∃ order,
    scanPath fs path (serial order) = Some (sort.Strings (discovered fs path)).
Proof.
  destruct (serial_run_exists_from _ (init fs path) (le_n _) (init_quiet fs path))
    as (order & st' & Hrun & Hfin).
  exists order.
  assert (scanPath fs path (serial order) = Some (sort.Strings (commands st')))
    as Hscan by (unfold scanPath; by rewrite Hrun, Hfin).
  rewrite Hscan. f_equal. by eapply scanPath_serial.
Qed.

(** C5, where the code departs from it.  With "vim" in one directory and
    "emacs" and "nano" in the other, the run in which both goroutines read
    the shared slice before either writes it back ends with "emacs" and
    "nano" only: the output is not the sorted concatenation of the two
    directory scans. *)
Theorem scanPath_interrupted_append_drops_vim :
  fetchExecutables two_dirs "d1" = ["vim"]
  ∧ fetchExecutables two_dirs "d2" = ["emacs"; "nano"]
  ∧ scanPath two_dirs "d1:d2" [0; 1; 0; 1; 1; 1]%nat = Some ["emacs"; "nano"].
Proof. split_and!; vm_compute; reflexivity. Qed.

(** C7, where the code departs from it.  Whenever two directories hold
    one executable each, the run in which both goroutines read the shared
    slice before either writes it back loses the entry of the first
    directory. *)
Theorem scanPath_lost_update (fs : FileSystem) (a b : string) :
  fetchExecutables fs "d1" = [a] →
  fetchExecutables fs "d2" = [b] →
  scanPath fs "d1:d2" [0; 1; 0; 1]%nat = Some [b].
Proof.
  intros Ha Hb. unfold scanPath, init.
  change (strings.Split "d1:d2" ":") with ["d1"; "d2"].
  simpl. rewrite Ha, Hb. reflexivity.
Qed.

(** A run of [scanPath_lost_update]. *)
Lemma scanPath_lost_update_witness :
  scanPath two_dirs_one_each "d1:d2" [0; 1; 0; 1]%nat = Some ["emacs"].
Proof.
  apply (scanPath_lost_update two_dirs_one_each "vim" "emacs");
    vm_compute; reflexivity.
Defined.

End scan_facts.

(** * Further properties *)

(** ** Strings and numbers *)

(** Appending and reversing. *)
Lemma string_app_cons a (s t : string) : String a s +:+ t = String a (s +:+ t).
Proof. reflexivity. Qed.

Lemma rev_app_rev_app (s t u : string) :
  String.rev_app (String.rev_app s t) u = String.rev_app t (s +:+ u).
Proof.
  revert t. induction s as [|a s IH]; intros t; [done|].
  simpl. rewrite IH. by rewrite string_app_cons.
Qed.

Lemma string_rev_involutive (s : string) : String.rev (String.rev s) = s.
Proof.
  unfold String.rev. rewrite rev_app_rev_app. simpl. apply string_app_nil_r.
Qed.

Lemma rev_app_app (s t u : string) :
  String.rev_app (s +:+ t) u = String.rev_app t (String.rev_app s u).
Proof.
  revert u. induction s as [|a s IH]; intros u; [done|].
  rewrite string_app_cons. simpl. by rewrite IH.
Qed.

Lemma string_rev_snoc (s : string) c :
  String.rev (s +:+ String c "") = String c (String.rev s).
Proof. unfold String.rev. by rewrite rev_app_app. Qed.

Lemma last_byte_snoc (s : string) c :
  last_byte s = Some c → ∃ body, s = body +:+ String c "".
Proof.
  induction s as [|a s IH]; [done|]. simpl.
  destruct s as [|b s].
  - intros [= ->]. by exists "".
  - intros Hl. destruct (IH Hl) as [body ->]. by exists (String a body).
Qed.

Lemma contains_app c (s t : string) :
  contains c (s +:+ t) = contains c s || contains c t.
Proof.
  induction s as [|a s IH]; [done|].
  rewrite string_app_cons. simpl. by rewrite IH, orb_assoc.
Qed.

Lemma length_string_app (s t : string) :
  String.length (s +:+ t) = (String.length s + String.length t)%nat.
Proof.
  induction s as [|a s IH]; [done|]. rewrite string_app_cons. simpl. by rewrite IH.
Qed.

Lemma strip_any_None toks c (s : string) :
  forallb (starts_other c) toks = true →
  strings.strip_any toks (String c s) = None.
Proof.
  induction toks as [|tok toks IH]; [done|]. simpl.
  rewrite andb_true_iff. intros [Htok Htoks].
  destruct tok as [|a tok]; [done|]. simpl in *.
  destruct (Ascii.eqb a c); [done|]. by apply IH.
Qed.

Lemma plain_starts_no_space c :
  plain c = true → forallb (starts_other c) strings.space_encodings = true.
Proof.
  intros H. destruct c as [[] [] [] [] [] [] [] []];
    vm_compute in H; try discriminate H; vm_compute; reflexivity.
Qed.

Lemma plain_ends_no_space c :
  plain c = true →
  forallb (starts_other c) (String.rev <$> strings.space_encodings) = true.
Proof.
  intros H. destruct c as [[] [] [] [] [] [] [] []];
    vm_compute in H; try discriminate H; vm_compute; reflexivity.
Qed.

Lemma trim_leading_None toks fuel (s : string) :
  strings.strip_any toks s = None → strings.trim_leading toks fuel s = s.
Proof. intros H. destruct fuel; simpl; [done|]. by rewrite H. Qed.

Lemma TrimSpace_plain_ends (c0 c1 : ascii) (body : string) :
  plain c0 = true → plain c1 = true →
  strings.TrimSpace (String c0 body +:+ String c1 "")
  = String c0 body +:+ String c1 "".
Proof.
  intros H0 H1. unfold strings.TrimSpace.
  assert (strings.TrimLeft (String c0 body +:+ String c1 "")
          = String c0 body +:+ String c1 "") as ->.
  { unfold strings.TrimLeft. apply trim_leading_None.
    rewrite string_app_cons. apply strip_any_None.
    by apply plain_starts_no_space. }
  unfold strings.TrimRight. rewrite string_rev_snoc.
  rewrite trim_leading_None
    by (apply strip_any_None; by apply plain_ends_no_space).
  by rewrite <- string_rev_snoc, string_rev_involutive.
Qed.

(** Cutting at the first separator. *)
Lemma Split_cut (a b : string) (sep : ascii) :
  contains sep a = false →
  strings.Split (a +:+ String sep b) sep = a :: strings.Split b sep.
Proof.
  induction a as [|c a IH]; simpl.
  - intros _. change ("" +:+ String sep b) with (String sep b).
    simpl. by rewrite Ascii.eqb_refl.
  - rewrite orb_false_iff. intros [Hc Ha].
    rewrite Ascii.eqb_sym, Hc. by rewrite IH.
Qed.

(** Decimal digits. *)
Lemma digit_plain c : is_Some (strconv.digit c) → plain c = true.
Proof.
  intros [d H]. destruct c as [[] [] [] [] [] [] [] []];
    vm_compute in H; try discriminate H; reflexivity.
Qed.

Lemma plain_not_sep c : plain c = true → Ascii.eqb TAB c = false ∧ Ascii.eqb LF c = false ∧ Ascii.eqb c CR = false.
Proof.
  intros H. destruct c as [[] [] [] [] [] [] [] []];
    vm_compute in H; try discriminate H; done.
Qed.

Lemma contains_cons sep c (s : string) :
  contains sep (String c s) = Ascii.eqb sep c || contains sep s.
Proof. reflexivity. Qed.

Lemma all_digits_cons c (s : string) :
  all_digits (String c s) = true
  ↔ is_Some (strconv.digit c) ∧ all_digits s = true.
Proof.
  change (all_digits (String c s))
    with (bool_decide (is_Some (strconv.digit c)) && all_digits s).
  by rewrite andb_true_iff, bool_decide_eq_true.
Qed.

Lemma all_digits_no_sep (s : string) :
  all_digits s = true → contains TAB s = false ∧ contains LF s = false.
Proof.
  induction s as [|c s IH]; [done|].
  rewrite all_digits_cons, !contains_cons. intros [Hc Hs].
  destruct (plain_not_sep c (digit_plain c Hc)) as (-> & -> & _). by apply IH.
Qed.

Lemma digit_of_char (d : Z) :
  (0 ≤ d < 10)%Z →
  strconv.digit (Ascii.ascii_of_nat (Z.to_nat (48 + d))) = Some d.
Proof.
  intros Hd.
  assert (d = 0 ∨ d = 1 ∨ d = 2 ∨ d = 3 ∨ d = 4 ∨ d = 5 ∨ d = 6 ∨ d = 7
          ∨ d = 8 ∨ d = 9)%Z as Hcases by lia.
  destruct Hcases as [->|[->|[->|[->|[->|[->|[->|[->|[->| ->]]]]]]]]];
    reflexivity.
Qed.

Lemma FormatUint_loop_digits fuel n acc :
  all_digits acc = true → all_digits (strconv.FormatUint_loop fuel n acc) = true.
Proof.
  revert n acc. induction fuel as [|fuel IH]; intros n acc Hacc; [done|].
  simpl.
  assert (all_digits (String (Ascii.ascii_of_nat (Z.to_nat (48 + n mod 10))) acc)
          = true) as Hacc'.
  { simpl. rewrite Hacc, andb_true_r. apply bool_decide_eq_true.
    rewrite digit_of_char; [done|]. apply Z.mod_pos_bound. lia. }
  destruct (n <? 10)%Z; [done|]. by apply IH.
Qed.

Lemma FormatUint_loop_value fuel n acc :
  (0 ≤ n < 10 ^ Z.of_nat fuel)%Z →
  digits_value (strconv.FormatUint_loop fuel n acc) 0 = digits_value acc n.
Proof.
  revert n acc. induction fuel as [|fuel IH]; intros n acc Hn.
  - simpl in *. assert (n = 0%Z) as -> by lia. done.
  - simpl. destruct (Z.ltb_spec n 10) as [Hlt|Hge].
    + simpl. rewrite digit_of_char by (rewrite Z.mod_small; lia).
      simpl. rewrite Z.mod_small by lia. done.
    + rewrite IH.
      * simpl. rewrite digit_of_char by (apply Z.mod_pos_bound; lia). simpl.
        f_equal. pose proof (Z.div_mod n 10). lia.
      * rewrite Nat2Z.inj_succ, Z.pow_succ_r in Hn by lia.
        split; [apply Z.div_pos; lia|]. apply Z.div_lt_upper_bound; lia.
Qed.

Lemma FormatUint_loop_length fuel n acc :
  (String.length (strconv.FormatUint_loop fuel n acc)
   ≤ fuel + String.length acc)%nat.
Proof.
  revert n acc. induction fuel as [|fuel IH]; intros n acc; [done|].
  simpl. destruct (n <? 10)%Z; simpl; [lia|].
  etrans; [apply IH|]. simpl. lia.
Qed.

Lemma FormatUint_loop_cons fuel n c acc :
  ∃ c' s, strconv.FormatUint_loop fuel n (String c acc) = String c' s.
Proof.
  revert n c acc. induction fuel as [|fuel IH]; intros n c acc; [by eexists _, _|].
  simpl. destruct (n <? 10)%Z; [by eexists _, _|]. apply IH.
Qed.

Lemma FormatUint_loop_S fuel n acc :
  strconv.FormatUint_loop (S fuel) n acc
  = if (n <? 10)%Z
    then String (Ascii.ascii_of_nat (Z.to_nat (48 + n mod 10))) acc
    else strconv.FormatUint_loop fuel (n / 10)
           (String (Ascii.ascii_of_nat (Z.to_nat (48 + n mod 10))) acc).
Proof. reflexivity. Qed.

Lemma FormatUint_cons n : ∃ c s, strconv.FormatUint n = String c s.
Proof.
  unfold strconv.FormatUint. rewrite FormatUint_loop_S.
  destruct (n <? 10)%Z; [by eexists _, _|]. apply FormatUint_loop_cons.
Qed.

Lemma digits_value_le (s : string) (n : Z) :
  (0 ≤ n)%Z → all_digits s = true → (n ≤ digits_value s n)%Z.
Proof.
  revert n. induction s as [|c s IH]; intros n Hn; simpl; [lia|].
  rewrite andb_true_iff, bool_decide_eq_true. intros [[d Hd] Hs].
  rewrite Hd. simpl.
  assert (0 ≤ d < 10)%Z.
  { unfold strconv.digit in Hd.
    destruct ((48 <=? Z.of_nat (nat_of_ascii c))%Z && (Z.of_nat (nat_of_ascii c) <=? 57)%Z) eqn:E; [|done].
    injection Hd as <-. lia. }
  etrans; [|apply IH; [lia|done]]. lia.
Qed.

Lemma ParseUint_loop_value (s : string) (n : Z) :
  (0 ≤ n)%Z → all_digits s = true →
  (digits_value s n ≤ strconv.maxUint64)%Z →
  strconv.ParseUint_loop s n = (digits_value s n, None).
Proof.
  revert n. induction s as [|c s IH]; intros n Hn; simpl; [done|].
  rewrite andb_true_iff, bool_decide_eq_true. intros [[d Hd] Hs] Hmax.
  rewrite Hd in *. simpl in *.
  assert (0 ≤ d < 10)%Z.
  { unfold strconv.digit in Hd.
    destruct ((48 <=? Z.of_nat (nat_of_ascii c))%Z && (Z.of_nat (nat_of_ascii c) <=? 57)%Z) eqn:E; [|done].
    injection Hd as <-. lia. }
  pose proof (digits_value_le s (n * 10 + d) ltac:(lia) Hs).
  assert (strconv.maxUint64 = 18446744073709551615)%Z as Hm by reflexivity.
  rewrite Hm in *.
  destruct (Z.leb_spec (18446744073709551615 / 10 + 1) n) as [Hover|_].
  { change (18446744073709551615 / 10)%Z with 1844674407370955161%Z in Hover. lia. }
  destruct (Z.ltb_spec 18446744073709551615 (n * 10 + d)) as [Hover|_]; [lia|].
  apply IH; [lia|done|lia].
Qed.

Lemma ParseUint_FormatUint n :
  (0 ≤ n < 2 ^ 64)%Z → strconv.ParseUint (strconv.FormatUint n) = (n, None).
Proof.
  intros Hn. destruct (FormatUint_cons n) as (c & s & Heq).
  unfold strconv.ParseUint. rewrite Heq, <- Heq.
  assert (digits_value (strconv.FormatUint n) 0 = n) as Hval.
  { unfold strconv.FormatUint. rewrite FormatUint_loop_value; [done|].
    change (10 ^ Z.of_nat 20)%Z with 100000000000000000000%Z. lia. }
  rewrite ParseUint_loop_value; rewrite ?Hval; try done.
  - by apply FormatUint_loop_digits.
  - unfold strconv.maxUint64. lia.
Qed.

Lemma digit_not_sign c :
  is_Some (strconv.digit c) →
  Ascii.eqb c "+" = false ∧ Ascii.eqb c "-" = false.
Proof.
  intros [d H]. destruct c as [[] [] [] [] [] [] [] []];
    vm_compute in H; try discriminate H; done.
Qed.

Lemma FormatUint_digits n : all_digits (strconv.FormatUint n) = true.
Proof. by apply FormatUint_loop_digits. Qed.

Lemma ParseInt_FormatUint n :
  (0 ≤ n < 2 ^ 64)%Z →
  strconv.ParseInt (strconv.FormatUint n)
  = if (n <? 2 ^ 63)%Z then (n, None) else ((2 ^ 63 - 1)%Z, Some ErrRange).
Proof.
  intros Hn. pose proof (ParseUint_FormatUint n Hn) as Hparse.
  pose proof (FormatUint_digits n) as Hdigits.
  destruct (FormatUint_cons n) as (c & s & Heq). rewrite Heq in *.
  apply all_digits_cons in Hdigits as [Hc _].
  destruct (digit_not_sign c Hc) as [Hplus Hminus].
  unfold strconv.ParseInt. rewrite Hplus, Hminus. simpl orb. cbv iota.
  rewrite Hparse. simpl negb. simpl andb.
  destruct (Z.ltb_spec n (2 ^ 63)) as [Hlt|Hge].
  - destruct (Z.leb_spec (2 ^ 63) n); [lia|done].
  - destruct (Z.leb_spec (2 ^ 63) n); [done|lia].
Qed.

Lemma storable_inv name :
  storable name = true →
  contains TAB name = false ∧ contains LF name = false
  ∧ (∃ body c, name = body +:+ String c "" ∧ plain c = true)
  ∧ (String.length name + 22 < bufio.MaxScanTokenSize)%nat.
Proof.
  unfold storable. rewrite !andb_true_iff, !negb_true_iff.
  intros [[[Htab Hlf] Hlast] Hlen]. split_and!; try done.
  - destruct (last_byte name) as [c|] eqn:Hl; [|done].
    destruct (last_byte_snoc _ _ Hl) as [body ->]. by exists body, c.
  - by apply Nat.ltb_lt.
Qed.

Lemma line_of_shape (c : Command) :
  storable (Name c) = true →
  ∃ c0 body c1,
    line_of c = String c0 body +:+ String c1 ""
    ∧ plain c0 = true ∧ plain c1 = true.
Proof.
  intros Hname. apply storable_inv in Hname as (_ & _ & (nb & c1 & Hn & Hc1) & _).
  pose proof (FormatUint_digits (Calls c)) as Hdigits.
  destruct (FormatUint_cons (Calls c)) as (c0 & s0 & Heq).
  rewrite Heq in Hdigits. apply all_digits_cons in Hdigits as [Hc0 _].
  exists c0, (s0 +:+ tab +:+ nb), c1. split_and!; [|by apply digit_plain|done].
  unfold line_of. rewrite Heq, Hn.
  by rewrite !string_app_cons, !string_app_assoc.
Qed.

Lemma line_of_no_LF (c : Command) :
  storable (Name c) = true → contains LF (line_of c) = false.
Proof.
  intros Hname. apply storable_inv in Hname as (_ & Hlf & _).
  unfold line_of. rewrite !contains_app, Hlf.
  destruct (all_digits_no_sep _ (FormatUint_digits (Calls c))) as [_ ->].
  reflexivity.
Qed.

Lemma line_of_fits (c : Command) :
  storable (Name c) = true → bufio.fits (line_of c) = true.
Proof.
  intros Hname. apply storable_inv in Hname as (_ & _ & _ & Hlen).
  unfold bufio.fits, line_of. apply Nat.ltb_lt.
  rewrite !length_string_app.
  pose proof (FormatUint_loop_length 20 (Calls c) "") as Hd.
  fold (strconv.FormatUint (Calls c)) in Hd. simpl in Hd.
  change (String.length tab) with 1%nat. lia.
Qed.

Lemma line_of_dropCR (c : Command) :
  storable (Name c) = true → bufio.dropCR (line_of c) = line_of c.
Proof.
  intros Hname.
  destruct (line_of_shape c Hname) as (c0 & body & c1 & Heq & _ & Hc1).
  unfold bufio.dropCR. rewrite Heq, string_rev_snoc.
  by destruct (plain_not_sep c1 Hc1) as (_ & _ & ->).
Qed.

(** A stored line reads back as the command it was written from. *)
Lemma parse_line_line_of (c : Command) :
  storable (Name c) = true → (0 ≤ Calls c < 2 ^ 64)%Z →
  parse_line (line_of c)
  = if (Calls c <? 2 ^ 63)%Z then Ok c else Panic (PanicError ErrRange).
Proof.
  intros Hname Hcalls.
  destruct (line_of_shape c Hname) as (c0 & body & c1 & Heq & Hc0 & Hc1).
  apply storable_inv in Hname as (Htab & _ & _ & _).
  unfold parse_line.
  rewrite Heq, TrimSpace_plain_ends, <- Heq by done.
  unfold line_of.
  change (tab +:+ Name c) with (String TAB (Name c)).
  rewrite Split_cut
    by (by destruct (all_digits_no_sep _ (FormatUint_digits (Calls c)))).
  rewrite Split_no_sep by done. simpl.
  rewrite ParseInt_FormatUint by done.
  destruct (Calls c <? 2 ^ 63)%Z; simpl; [|done].
  unfold uint64. rewrite Z.mod_small by lia. by destruct c.
Qed.

Lemma Split_render (cmds : list Command) :
  Forall (λ c, storable (Name c) = true) cmds →
  strings.Split (render cmds) LF = (line_of <$> cmds) ++ [""].
Proof.
  induction 1 as [|c cmds Hc Hcmds IH]; [done|].
  rewrite render_cons.
  replace (strconv.FormatUint (Calls c) +:+ tab +:+ Name c +:+ nl +:+ render cmds)
    with (line_of c +:+ String LF (render cmds))
    by (unfold line_of; by rewrite !string_app_assoc).
  rewrite Split_cut by (by apply line_of_no_LF). by rewrite IH.
Qed.

Lemma Scanner_lines_render (cmds : list Command) :
  Forall (λ c, storable (Name c) = true) cmds →
  bufio.Scanner_lines (render cmds) = line_of <$> cmds.
Proof.
  intros Hnames. unfold bufio.Scanner_lines, bufio.raw_lines.
  rewrite Split_render by done.
  rewrite reverse_app, reverse_singleton. simpl. rewrite reverse_involutive.
  induction Hnames as [|c cmds Hc Hcmds IH]; [done|]. csimpl.
  rewrite line_of_fits by done. csimpl. by rewrite line_of_dropCR, IH.
Qed.

Lemma parse_all_lines_of (cmds : list Command) :
  Forall readable cmds → parse_all (line_of <$> cmds) = Ok cmds.
Proof.
  induction 1 as [|c cmds [Hname Hcalls] Hcmds IH]; [done|]. csimpl.
  rewrite parse_line_line_of by (done || lia).
  destruct (Z.ltb_spec (Calls c) (2 ^ 63)); [|lia]. simpl. by rewrite IH.
Qed.

(** X: round trip of the file format. *)
Lemma history_file_round_trip (cmds : list Command) :
  Forall readable cmds →
  parse_all (bufio.Scanner_lines (render cmds)) = Ok cmds.
Proof.
  intros Hcmds. rewrite Scanner_lines_render.
  - by apply parse_all_lines_of.
  - eapply Forall_impl; [done|]. by intros c [? _].
Qed.

Lemma storable_nonempty name : storable name = true → name ≠ "".
Proof. by intros H ->. Qed.

Lemma bump_first_readable last cmds :
  Forall bumpable cmds → Forall readable (bump_first last cmds).
Proof.
  induction 1 as [|c cmds [Hname Hcalls] Hcmds IH]; [constructor|]. simpl.
  assert (Forall readable cmds) as Hrest.
  { eapply Forall_impl; [done|]. intros x [? ?]. split; [done|lia]. }
  case_decide.
  - constructor; [|done]. split; [done|]. simpl.
    rewrite uint64_increment by lia. lia.
  - constructor; [|done]. split; [done|lia].
Qed.

Lemma stored_readable last cmds :
  Forall bumpable cmds → storable last = true → Forall readable (stored cmds last).
Proof.
  intros Hcmds Hlast. unfold stored. apply Forall_app. split.
  - by apply bump_first_readable.
  - case_decide; [constructor|]. apply Forall_singleton.
    split; simpl; [done|lia].
Qed.

Lemma writeHistory_stored fs path (h : list Command) ps cmds last :
  path ∉ fs_denied fs →
  view h ps = Some <$> cmds →
  NoDup ps →
  Forall (λ c, Name c ≠ "") cmds →
  last ≠ "" →
  ∃ h',
    writeHistory fs path h ps last
    = Ok (os.store fs path (render (stored cmds last)), h')
    ∧ view h' ps = Some <$> bump_first last cmds
    ∧ length h' = length h.
Proof.
  intros Hcreate Hview Hnodup Hnames Hlast.
  destruct (writeHistory_spec fs path h ps cmds last Hcreate Hview Hnodup Hnames)
    as (h' & Hwrite & Hview' & Hlen & _).
  exists h'. split_and!; [|done..]. rewrite Hwrite. do 3 f_equal.
  unfold stored. rewrite render_app.
  case_decide; [done|]. by rewrite decide_True.
Qed.

Lemma Open_store fs path content :
  os.Open (os.store fs path content) path = Some content.
Proof. unfold os.Open, os.store. simpl. apply lookup_insert_eq. Qed.

Section cycle.
Context `{sort.Sorter}.

(** The cycle of one launch: what [writeHistory] stores, the next
    [readHistory] returns, in rank order. *)
Lemma launch_cycle fs path (h h2 : list Command) ps cmds last :
  path ∉ fs_denied fs →
  view h ps = Some <$> cmds →
  NoDup ps →
  Forall bumpable cmds →
  storable last = true →
  ∃ fs' h' ps' sorted,
    writeHistory fs path h ps last = Ok (fs', h')
    ∧ readHistory fs' path h2 = Ok (h2 ++ stored cmds last, ps')
    ∧ view (h2 ++ stored cmds last) ps' = Some <$> sorted
    ∧ sorted ≡ₚ stored cmds last
    ∧ ranked sorted.
Proof.
  intros Hcreate Hview Hnodup Hcmds Hlast.
  destruct (writeHistory_stored fs path h ps cmds last) as (h' & Hwrite & _);
    try done.
  { eapply Forall_impl; [done|]. intros c [Hc _]. by apply storable_nonempty. }
  { by apply storable_nonempty. }
  destruct (read_ranked (os.store fs path (render (stored cmds last))) path h2
              (render (stored cmds last)) (stored cmds last))
    as (ps' & sorted & Hread & Hv & Hperm & Hranked).
  { apply Open_store. }
  { apply parse_all_Ok, history_file_round_trip. by apply stored_readable. }
  by eexists _, h', ps', sorted.
Qed.

End cycle.

Lemma total_calls_Permutation (l k : list Command) :
  l ≡ₚ k → total_calls l = total_calls k.
Proof.
  induction 1 as [|c l k _ IH|c d l|l k m _ IH1 _ IH2];
    unfold total_calls in *; simpl; lia.
Qed.

Lemma total_calls_app (l k : list Command) :
  total_calls (l ++ k) = (total_calls l + total_calls k)%Z.
Proof. induction l as [|c l IH]; simpl; [done|]. unfold total_calls in *. simpl. lia. Qed.

Lemma total_calls_cons c (l : list Command) :
  total_calls (c :: l) = (Calls c + total_calls l)%Z.
Proof. reflexivity. Qed.

Lemma stored_total last cmds :
  Forall bumpable cmds →
  total_calls (stored cmds last) = (total_calls cmds + 1)%Z.
Proof.
  intros Hcmds. unfold stored. rewrite total_calls_app.
  induction Hcmds as [|c cmds [Hname Hcalls] Hcmds IH].
  - rewrite decide_False by apply not_elem_of_nil. reflexivity.
  - simpl bump_first. destruct (decide (Name c = last)) as [Heq|Hne].
    + rewrite decide_True by (rewrite <- Heq; apply list_elem_of_here).
      rewrite !total_calls_cons. simpl. rewrite uint64_increment by lia. lia.
    + rewrite !total_calls_cons.
      destruct (decide (last ∈ Name <$> cmds)) as [Hin|Hnin].
      * rewrite decide_True by (by apply list_elem_of_further).
        unfold total_calls in *. simpl in *. lia.
      * rewrite decide_False
          by (csimpl; rewrite not_elem_of_cons; split; [congruence|done]).
        unfold total_calls in *. simpl in *. lia.
Qed.

Lemma stored_names_NoDup last cmds :
  NoDup (Name <$> cmds) → NoDup (Name <$> stored cmds last).
Proof.
  intros Hnodup. unfold stored. rewrite fmap_app, bump_first_names.
  case_decide as Hin; [by rewrite app_nil_r|].
  apply NoDup_app. split_and!; [done| |apply NoDup_singleton].
  intros x Hx [->|[]%elem_of_nil]%elem_of_cons. done.
Qed.

Lemma calls_of_absent last cmds :
  last ∉ Name <$> cmds → calls_of last cmds = 0%Z.
Proof.
  induction cmds as [|c cmds IH]; [done|]. csimpl.
  rewrite not_elem_of_cons. intros [Hne Hnin].
  rewrite decide_False by congruence. by apply IH.
Qed.

Lemma bump_first_has_selection last cmds :
  Forall bumpable cmds → last ∈ Name <$> cmds →
  mkCommand last (calls_of last cmds + 1) ∈ bump_first last cmds.
Proof.
  induction 1 as [|c cmds [Hname Hcalls] Hcmds IH]; csimpl.
  - by intros ?%elem_of_nil.
  - intros Hin. destruct (decide (Name c = last)) as [Heq|Hne].
    + rewrite uint64_increment by lia. rewrite Heq. apply list_elem_of_here.
    + apply list_elem_of_further, IH.
      apply elem_of_cons in Hin as [?|?]; [congruence|done].
Qed.

Lemma stored_has_selection last cmds :
  Forall bumpable cmds →
  mkCommand last (calls_of last cmds + 1) ∈ stored cmds last.
Proof.
  intros Hcmds. unfold stored. apply elem_of_app.
  destruct (decide (last ∈ Name <$> cmds)) as [Hin|Hnin].
  - left. by apply bump_first_has_selection.
  - right. rewrite calls_of_absent by done. apply list_elem_of_here.
Qed.

Lemma parse_all_large_counter (cmds : list Command) :
  Forall printable cmds →
  Exists (λ c, (2 ^ 63 ≤ Calls c)%Z) cmds →
  parse_all (line_of <$> cmds) = Panic (PanicError ErrRange).
Proof.
  induction 1 as [|c cmds [Hname Hcalls] Hcmds IH]; intros Hex.
  - by apply Exists_nil in Hex.
  - csimpl. rewrite parse_line_line_of by done.
    destruct (Z.ltb_spec (Calls c) (2 ^ 63)) as [Hlt|Hge]; [|done].
    apply Exists_cons in Hex as [?|Hex]; [lia|]. simpl. by rewrite IH.
Qed.

Lemma bump_first_printable last cmds :
  Forall (λ c, storable (Name c) = true ∧ (0 ≤ Calls c < 2 ^ 64 - 1)%Z) cmds →
  Forall printable (bump_first last cmds).
Proof.
  induction 1 as [|c cmds [Hname Hcalls] Hcmds IH]; [constructor|]. simpl.
  assert (Forall printable cmds) as Hrest.
  { eapply Forall_impl; [done|]. intros x [? ?]. split; [done|lia]. }
  case_decide.
  - constructor; [|done]. split; [done|]. simpl.
    rewrite uint64_increment by lia. lia.
  - constructor; [|done]. split; [done|lia].
Qed.

Lemma bump_first_large last cmds :
  Forall (λ c, (0 ≤ Calls c < 2 ^ 64 - 1)%Z) cmds →
  Exists (λ c, (2 ^ 63 ≤ Calls c)%Z) cmds →
  Exists (λ c, (2 ^ 63 ≤ Calls c)%Z) (bump_first last cmds).
Proof.
  induction 1 as [|c cmds Hcalls Hcmds IH]; intros Hex; [done|]. simpl.
  apply Exists_cons in Hex as [Hc|Hex].
  - case_decide; apply Exists_cons_hd; [|done]. simpl.
    rewrite uint64_increment by lia. lia.
  - case_decide; apply Exists_cons_tl; [done|by apply IH].
Qed.

Lemma parse_line_range text c :
  parse_line text = Ok c → (0 ≤ Calls c < 2 ^ 64)%Z.
Proof.
  unfold parse_line, index.
  destruct (strings.Split (strings.TrimSpace text) TAB) as [|s0 [|s1 s]];
    simpl; [done| |].
  - by destruct (strconv.ParseInt s0) as [calls [err|]].
  - destruct (strconv.ParseInt s0) as [calls [err|]]; simpl; [done|].
    intros [= <-]. simpl. unfold uint64. apply Z.mod_pos_bound. lia.
Qed.

Lemma parse_all_range lines cmds :
  parse_all lines = Ok cmds → Forall (λ c, (0 ≤ Calls c < 2 ^ 64)%Z) cmds.
Proof.
  intros Hall%parse_all_Ok.
  induction Hall as [|text c lines cmds Hc _ IH]; constructor; [|done].
  by eapply parse_line_range.
Qed.

Lemma write_loop_total (h : list Command) last f ps :
  Forall (λ p, (p < length h)%nat) ps →
  ∃ h' last' f',
    write_loop h last f ps = Ok (h', last', f') ∧ length h' = length h.
Proof.
  intros Hps. revert h last f Hps.
  induction ps as [|p ps IH]; intros h last f Hps; [by eexists _, _, _|].
  apply Forall_cons in Hps as [Hp Hps].
  destruct (lookup_lt_is_Some_2 h p Hp) as [c Hc].
  simpl. unfold deref. rewrite Hc. simpl. case_decide.
  - destruct (IH (<[p := mkCommand (Name c) (uint64 (Calls c + 1))]> h) "" 
               (write f (mkCommand (Name c) (uint64 (Calls c + 1)))))
      as (h' & last' & f' & Hloop & Hlen).
    { by rewrite length_insert. }
    exists h', last', f'. split; [done|]. by rewrite Hlen, length_insert.
  - by apply IH.
Qed.

Lemma three_commands_bumpable : Forall bumpable three_commands.
Proof.
  repeat (apply Forall_cons; split;
          [split; [vm_compute; reflexivity|simpl; lia]|]).
  apply Forall_nil_2.
Qed.

Section fresh.
Context `{sort.Sorter}.

Lemma readHistory_fresh fs path (h h' : list Command) ps :
  readHistory fs path h = Ok (h', ps) →
  ∃ cmds,
    h' = h ++ cmds
    ∧ ps ≡ₚ seq (length h) (length cmds)
    ∧ Forall (λ c, (0 ≤ Calls c < 2 ^ 64)%Z) cmds.
Proof.
  rewrite readHistory_unfold.
  destruct (os.Open fs path) as [content|].
  - destruct (parse_all (bufio.Scanner_lines content)) as [cmds|e] eqn:Hparse;
      simpl; [|done].
    intros [= <- <-]. exists cmds. split_and!; [done| |by eapply parse_all_range].
    apply sort.Sort_Permutation.
  - intros [= <- <-]. exists []. by rewrite app_nil_r.
Qed.

End fresh.

(** X1.  The slice that [readHistory] returns consists of distinct
    pointers to exactly the commands it has just allocated; what was in
    memory before is untouched; and every count it returns is a 64-bit
    value. *)
Theorem read_returns_fresh_commands `{sort.Sorter} fs path (h h' : list Command) ps :
  readHistory fs path h = Ok (h', ps) →
  NoDup ps
  ∧ (∀ p, p ∈ ps ↔ (length h ≤ p < length h')%nat)
  ∧ take (length h) h' = h
  ∧ Forall (λ p, ∃ c, h' !! p = Some c ∧ (0 ≤ Calls c < 2 ^ 64)%Z) ps.
Proof.
  intros (cmds & -> & Hperm & Hrange)%readHistory_fresh.
  split_and!.
  - rewrite Hperm. apply NoDup_seq.
  - intros p. rewrite Hperm, elem_of_seq, length_app. lia.
  - by rewrite take_app_length.
  - apply Forall_forall. intros p Hp. rewrite Hperm in Hp.
    apply elem_of_seq in Hp as [Hp1 Hp2].
    destruct (lookup_lt_is_Some_2 cmds (p - length h)) as [c Hc]; [lia|].
    exists c. split.
    + rewrite lookup_app_r by lia. done.
    + eapply (proj1 (Forall_forall _ _) Hrange). by eapply list_elem_of_lookup_2.
Qed.

(** The file of two commands, read into a memory that holds one. *)
Lemma read_returns_fresh_commands_witness :
  NoDup [1; 2]%nat
  ∧ (∀ p, p ∈ [1; 2]%nat
          ↔ (length [mkCommand "old" 7] ≤ p
             < length [mkCommand "old" 7; mkCommand "vim" 3;
                       mkCommand "nano" 1])%nat)
  ∧ take (length [mkCommand "old" 7])
      [mkCommand "old" 7; mkCommand "vim" 3; mkCommand "nano" 1]
    = [mkCommand "old" 7]
  ∧ Forall (λ p, ∃ c,
              [mkCommand "old" 7; mkCommand "vim" 3; mkCommand "nano" 1] !! p
              = Some c ∧ (0 ≤ Calls c < 2 ^ 64)%Z) [1; 2]%nat.
Proof.
  apply (@read_returns_fresh_commands insertion_sorter
           (history_fs "history.tsv" (record "3" "vim" +:+ record "1" "nano"))
           "history.tsv" [mkCommand "old" 7]).
  vm_compute. reflexivity.
Defined.

(** X2.  [writeHistory] does not panic on a slice that [readHistory]
    returned, whatever was selected, when the file can be created: no
    pointer is nil and no index is out of range. *)
Theorem write_after_read_succeeds `{sort.Sorter} fs fs2 path path2 (h h' : list Command) ps last :
  readHistory fs path h = Ok (h', ps) →
  path2 ∉ fs_denied fs2 →
  ∃ fs' h'', writeHistory fs2 path2 h' ps last = Ok (fs', h'').
Proof.
  intros (cmds & -> & Hperm & _)%readHistory_fresh Hcreate.
  destruct (write_loop_total (h ++ cmds) last "" ps) as (h2 & l2 & f2 & Hloop & _).
  { apply Forall_forall. intros p Hp. rewrite Hperm in Hp.
    apply elem_of_seq in Hp. rewrite length_app. lia. }
  unfold writeHistory, os.Create. rewrite decide_False by done. simpl.
  rewrite Hloop. simpl. by eexists _, _.
Qed.

Lemma write_after_read_succeeds_witness :
  ∃ fs' h'',
    writeHistory (history_fs "history.tsv" "") "history.tsv"
      [mkCommand "old" 7; mkCommand "vim" 3; mkCommand "nano" 1] [1; 2]%nat
      "nano"
    = Ok (fs', h'').
Proof.
  apply (@write_after_read_succeeds insertion_sorter
           (history_fs "history.tsv" (record "3" "vim" +:+ record "1" "nano"))
           (history_fs "history.tsv" "") "history.tsv" "history.tsv"
           [mkCommand "old" 7]).
  - vm_compute. reflexivity.
  - simpl. apply not_elem_of_empty.
Defined.

(** X3.  A count of 2^63 or more is written as it is, and the file that
    holds it cannot be read again: [strconv.ParseInt] reports a range error
    and [readHistory] panics with it. *)
Theorem large_counter_breaks_read `{sort.Sorter} fs path (h h2 : list Command) ps cmds last :
  path ∉ fs_denied fs →
  view h ps = Some <$> cmds →
  NoDup ps →
  Forall (λ c, storable (Name c) = true ∧ (0 ≤ Calls c < 2 ^ 64 - 1)%Z) cmds →
  storable last = true →
  Exists (λ c, (2 ^ 63 ≤ Calls c)%Z) cmds →
  ∃ fs' h',
    writeHistory fs path h ps last = Ok (fs', h')
    ∧ readHistory fs' path h2 = Panic (PanicError ErrRange).
Proof.
  intros Hcreate Hview Hnodup Hcmds Hlast Hex.
  destruct (writeHistory_stored fs path h ps cmds last) as (h' & Hwrite & _);
    try done.
  { eapply Forall_impl; [done|]. intros c [Hc _]. by apply storable_nonempty. }
  { by apply storable_nonempty. }
  eexists _, h'. split; [done|].
  rewrite readHistory_unfold, Open_store.
  assert (Forall printable (stored cmds last)) as Hprintable.
  { unfold stored. apply Forall_app. split; [by apply bump_first_printable|].
    case_decide; [constructor|]. apply Forall_singleton. split; simpl; [done|lia]. }
  rewrite Scanner_lines_render
    by (eapply Forall_impl; [done|]; by intros c [? _]).
  rewrite parse_all_large_counter; [done|done|].
  unfold stored. apply Exists_app. left. apply bump_first_large; [|done].
  eapply Forall_impl; [done|]. by intros c [_ ?].
Qed.

Lemma large_counter_breaks_read_witness :
  ∃ fs' h',
    writeHistory (history_fs "history.tsv" "") "history.tsv"
      [mkCommand "vim" (2 ^ 63)] [0]%nat "nano" = Ok (fs', h')
    ∧ @readHistory insertion_sorter fs' "history.tsv" []
      = Panic (PanicError ErrRange).
Proof.
  apply (@large_counter_breaks_read insertion_sorter
           (history_fs "history.tsv" "") "history.tsv"
           [mkCommand "vim" (2 ^ 63)] [] [0]%nat [mkCommand "vim" (2 ^ 63)]
           "nano").
  - simpl. apply not_elem_of_empty.
  - reflexivity.
  - compute_done.
  - apply Forall_singleton. split; [vm_compute; reflexivity|simpl; lia].
  - vm_compute. reflexivity.
  - apply Exists_cons_hd. simpl. lia.
Defined.

(** X4.  What [writeHistory] stores, the next [readHistory] returns: the
    commands of the slice with the first one called [last] counted once
    more, followed by [last] with count 1 when no command has that name,
    now ordered by descending count.  Names must be [storable], and
    counts below 2^63 - 1. *)
Theorem write_then_read `{sort.Sorter} fs path (h h2 : list Command) ps cmds last :
  path ∉ fs_denied fs →
  view h ps = Some <$> cmds →
  NoDup ps →
  Forall bumpable cmds →
  storable last = true →
  ∃ fs' h' ps' sorted,
    writeHistory fs path h ps last = Ok (fs', h')
    ∧ readHistory fs' path h2 = Ok (h2 ++ stored cmds last, ps')
    ∧ view (h2 ++ stored cmds last) ps' = Some <$> sorted
    ∧ sorted ≡ₚ stored cmds last
    ∧ ranked sorted.
Proof.
  apply launch_cycle.
Qed.

Lemma write_then_read_witness :
  ∃ fs' h' ps' sorted,
    writeHistory (history_fs "history.tsv" "") "history.tsv"
      three_commands [0; 1; 2]%nat "emacs" = Ok (fs', h')
    ∧ @readHistory insertion_sorter fs' "history.tsv" []
      = Ok ([] ++ stored three_commands "emacs", ps')
    ∧ view ([] ++ stored three_commands "emacs") ps' = Some <$> sorted
    ∧ sorted ≡ₚ stored three_commands "emacs"
    ∧ ranked sorted.
Proof.
  apply (@write_then_read insertion_sorter
           (history_fs "history.tsv" "") "history.tsv"
           three_commands [] [0; 1; 2]%nat three_commands "emacs").
  - simpl. apply not_elem_of_empty.
  - reflexivity.
  - compute_done.
  - apply three_commands_bumpable.
  - vm_compute. reflexivity.
Defined.

(** X5.  A history without a repeated name has none after a launch has
    been stored and read again, whether the launched command was in it or
    not. *)
Theorem launch_keeps_names_distinct `{sort.Sorter} fs path (h h2 : list Command) ps cmds last :
  path ∉ fs_denied fs →
  view h ps = Some <$> cmds →
  NoDup ps →
  Forall bumpable cmds →
  storable last = true →
  NoDup (Name <$> cmds) →
  ∃ fs' h' h3 ps' sorted,
    writeHistory fs path h ps last = Ok (fs', h')
    ∧ readHistory fs' path h2 = Ok (h3, ps')
    ∧ view h3 ps' = Some <$> sorted
    ∧ NoDup (Name <$> sorted).
Proof.
  intros Hcreate Hview Hnodup Hcmds Hlast Hnames.
  destruct (launch_cycle fs path h h2 ps cmds last)
    as (fs' & h' & ps' & sorted & Hw & Hr & Hv & Hp & _); try done.
  eexists fs', h', _, ps', sorted. split_and!; try done.
  rewrite Hp. by apply stored_names_NoDup.
Qed.

Lemma launch_keeps_names_distinct_witness :
  ∃ fs' h' h3 ps' sorted,
    writeHistory (history_fs "history.tsv" "") "history.tsv"
      three_commands [0; 1; 2]%nat "emacs" = Ok (fs', h')
    ∧ @readHistory insertion_sorter fs' "history.tsv" [] = Ok (h3, ps')
    ∧ view h3 ps' = Some <$> sorted
    ∧ NoDup (Name <$> sorted).
Proof.
  apply (@launch_keeps_names_distinct insertion_sorter
           (history_fs "history.tsv" "") "history.tsv"
           three_commands [] [0; 1; 2]%nat three_commands "emacs").
  - simpl. apply not_elem_of_empty.
  - reflexivity.
  - compute_done.
  - apply three_commands_bumpable.
  - vm_compute. reflexivity.  - compute_done.
Defined.

(** X6.  Storing a launch and reading the history again raises the sum
    of all counts by exactly one. *)
Theorem launch_adds_one_call `{sort.Sorter} fs path (h h2 : list Command) ps cmds last :
  path ∉ fs_denied fs →
  view h ps = Some <$> cmds →
  NoDup ps →
  Forall bumpable cmds →
  storable last = true →
  ∃ fs' h' h3 ps' sorted,
    writeHistory fs path h ps last = Ok (fs', h')
    ∧ readHistory fs' path h2 = Ok (h3, ps')
    ∧ view h3 ps' = Some <$> sorted
    ∧ total_calls sorted = (total_calls cmds + 1)%Z.
Proof.
  intros Hcreate Hview Hnodup Hcmds Hlast.
  destruct (launch_cycle fs path h h2 ps cmds last)
    as (fs' & h' & ps' & sorted & Hw & Hr & Hv & Hp & _); try done.
  eexists fs', h', _, ps', sorted. split_and!; try done.
  rewrite (total_calls_Permutation _ _ Hp). by apply stored_total.
Qed.

Lemma launch_adds_one_call_witness :
  ∃ fs' h' h3 ps' sorted,
    writeHistory (history_fs "history.tsv" "") "history.tsv"
      three_commands [0; 1; 2]%nat "emacs" = Ok (fs', h')
    ∧ @readHistory insertion_sorter fs' "history.tsv" [] = Ok (h3, ps')
    ∧ view h3 ps' = Some <$> sorted
    ∧ total_calls sorted = (total_calls three_commands + 1)%Z.
Proof.
  apply (@launch_adds_one_call insertion_sorter
           (history_fs "history.tsv" "") "history.tsv"
           three_commands [] [0; 1; 2]%nat three_commands "emacs").
  - simpl. apply not_elem_of_empty.
  - reflexivity.
  - compute_done.
  - apply three_commands_bumpable.
  - vm_compute. reflexivity.
Defined.

(** ** The menu *)

(** X7.  The menu holds a name exactly when the history or the
    discovered commands hold it. *)
Theorem menu_lists_both_sources (ranked discovered : list string) (x : string) :
  x ∈ Multiplex.multiplexMenuStreams ranked discovered
  ↔ x ∈ ranked ∨ x ∈ discovered.
Proof.
  rewrite multiplex_closed_form, elem_of_app, list_elem_of_filter.
  destruct (decide (x ∈ ranked)); tauto.
Qed.

(** X8.  When neither stream repeats a name, the menu lists no name
    twice. *)
Theorem menu_lists_no_name_twice (ranked discovered : list string) :
  NoDup ranked → NoDup discovered →
  NoDup (Multiplex.multiplexMenuStreams ranked discovered).
Proof.
  intros Hr Hd. rewrite multiplex_closed_form. apply NoDup_app.
  split_and!; [done| |by apply NoDup_filter].
  intros x Hx [Hnot _]%list_elem_of_filter. done.
Qed.

Lemma menu_lists_no_name_twice_witness :
  NoDup (Multiplex.multiplexMenuStreams ["vim"; "ls"] ["ls"; "cat"]).
Proof.
  apply (menu_lists_no_name_twice ["vim"; "ls"] ["ls"; "cat"]); compute_done.
Defined.

(** ** dmenuArgs *)

(** X9.  [dmenuArgs] returns what follows the first [--] on the command
    line, further [--] included, and nothing when there is no [--]. *)
Theorem dmenuArgs_after_first_separator (program : string)
    (before after : list string) :
  "--" ∉ before →
  dmenuArgs program (before ++ "--" :: after) = after
  ∧ dmenuArgs program before = [].
Proof.
  intros Hnot. unfold dmenuArgs.
  change (drop 1 (program :: before ++ "--" :: after))
    with (before ++ "--" :: after).
  change (drop 1 (program :: before)) with before.
  induction before as [|val before IH]; [done|].
  apply not_elem_of_cons in Hnot as [Hne Hnot].
  change (after_separator ((val :: before) ++ "--" :: after))
    with (if decide (val = "--") then before ++ "--" :: after
          else after_separator (before ++ "--" :: after)).
  change (after_separator (val :: before))
    with (if decide (val = "--") then before else after_separator before).
  rewrite !decide_False by congruence. by apply IH.
Qed.

Lemma dmenuArgs_after_first_separator_witness :
  dmenuArgs "yegonesh" (["-v"] ++ "--" :: ["-b"; "--"; "-fn"])
  = ["-b"; "--"; "-fn"]
  ∧ dmenuArgs "yegonesh" ["-v"] = [].
Proof.
  apply (dmenuArgs_after_first_separator "yegonesh" ["-v"] ["-b"; "--"; "-fn"]).
  compute_done.
Defined.

(** ** launchCommand, for every line *)

Lemma SplitN2_shape (s : string) (sep : ascii) :
  ∃ name rest,
    strings.SplitN2 s sep = name :: rest
    ∧ contains sep name = false ∧ (length rest ≤ 1)%nat.
Proof.
  induction s as [|c s (name & rest & Heq & Hname & Hlen)]; simpl.
  - exists "", []. split_and!; [done|done|simpl; lia].
  - destruct (Ascii.eqb c sep) eqn:Hc.
    + exists "", [s]. split_and!; [done|done|simpl; lia].
    + rewrite Heq. exists (String c name), rest. split_and!; [done| |done].
      simpl. by rewrite Ascii.eqb_sym, Hc.
Qed.

(** X10.  For every line, [launchCommand] looks up the part before the
    first space, which holds no space, passes at most one argument, and
    panics only when the lookup fails. *)
Theorem launch_fails_only_on_lookup (LookPath : string → option string)
    (command : string) :
  ∃ name rest,
    strings.SplitN2 command SP = name :: rest
    ∧ contains SP name = false
    ∧ (length rest ≤ 1)%nat
    ∧ launchCommand LookPath command
      = match LookPath name with
        | Some path => Ok (mkCmd path (path :: rest))
        | None => Panic (PanicError ErrNotFound)
        end.
Proof.
  destruct (SplitN2_shape command SP) as (name & rest & Heq & Hname & Hlen).
  exists name, rest. split_and!; try done.
  unfold launchCommand. rewrite Heq. simpl. unfold exec_LookPath.
  by destruct (LookPath name).
Qed.

(** ** Sorting by score *)

Lemma ByScore_StrictWeakOrder_valid (h : list Command) (ps : list nat) :
  Forall (λ p, is_Some (h !! p)) ps →
  sort.StrictWeakOrder (ByScore h) ps ∧ sort.StrictWeakOrder (sort.Reverse (ByScore h)) ps.
Proof.
  intros Hps.
  assert (∀ p, p ∈ ps → is_Some (h !! p)) as Hv
    by (by apply Forall_forall).
  unfold sort.Reverse, ByScore. split; split.
  - intros a b [ca ->]%Hv [cb ->]%Hv. lia.
  - intros a b c [ca ->]%Hv [cb ->]%Hv [cc ->]%Hv. lia.
  - intros a b [ca ->]%Hv [cb ->]%Hv. lia.
  - intros a b c [ca ->]%Hv [cb ->]%Hv [cc ->]%Hv. lia.
Qed.

(** X11.  [sort.Sort] on [ByScore] rearranges the slice into ascending
    order of [Calls], keeping every command. *)
Theorem sort_ByScore_ascending `{sort.Sorter} (h : list Command) (ps : list nat) cmds :
  view h ps = Some <$> cmds →
  ∃ sorted,
    view h (sort.Sort (ByScore h) ps) = Some <$> sorted
    ∧ sorted ≡ₚ cmds
    ∧ Sorted (λ a b, (Calls a ≤ Calls b)%Z) sorted.
Proof.
  intros Hview.
  assert (Forall (λ p, is_Some (h !! p)) ps) as Hvalid.
  { apply Forall_forall. intros p Hp.
    apply list_elem_of_lookup in Hp as [i Hi].
    assert (view h ps !! i = Some (h !! p)) as Hv
      by (unfold view; by rewrite list_lookup_fmap, Hi).
    rewrite Hview, list_lookup_fmap in Hv.
    destruct (cmds !! i) as [c|]; [|done]. injection Hv as <-. by eexists. }
  pose proof (sort.Sort_Permutation _ (ByScore h) ps) as Hperm.
  pose proof (sort.Sort_Sorted _ (ByScore h) ps
                (proj1 (ByScore_StrictWeakOrder_valid h ps Hvalid))) as Hsorted.
  assert (view h (sort.Sort (ByScore h) ps) ≡ₚ Some <$> cmds) as Hv.
  { rewrite <- Hview. unfold view. by apply fmap_Permutation. }
  apply Permutation_map_inv in Hv as (sorted & Heq & Hp).
  exists sorted. split_and!; [done|by symmetry|].
  apply (Sorted_Some_inv _ _ (λ oa ob, match oa, ob with
            | Some a, Some b => (Calls a ≤ Calls b)%Z | _, _ => True end));
    [done|].
  change (map Some sorted) with (Some <$> sorted) in Heq. rewrite <- Heq.
  unfold view.
  apply Sorted_fmap with (R1 := λ a b, ByScore h b a = false); [|done].
  intros p q. unfold ByScore.
  destruct (h !! p), (h !! q); try done. lia.
Qed.

(** The slice of [TestByScore_Sort]. *)
Lemma sort_ByScore_ascending_witness :
  ∃ sorted,
    view three_commands
      (@sort.Sort insertion_sorter _ (ByScore three_commands) [0; 1; 2]%nat)
    = Some <$> sorted
    ∧ sorted ≡ₚ three_commands
    ∧ Sorted (λ a b, (Calls a ≤ Calls b)%Z) sorted.
Proof.
  apply (@sort_ByScore_ascending insertion_sorter three_commands [0; 1; 2]%nat
           three_commands).
  reflexivity.
Defined.

(** ** Blank lines in the history file *)

Lemma parse_all_app (l k : list string) :
  parse_all (l ++ k)
  = (cs ← parse_all l; ks ← parse_all k; Ok (cs ++ ks)).
Proof.
  induction l as [|text l IH]; simpl.
  - by destruct (parse_all k).
  - destruct (parse_line text) as [c|e]; simpl; [|done]. rewrite IH.
    destruct (parse_all l) as [cs|e]; simpl; [|done].
    by destruct (parse_all k).
Qed.

Lemma parse_line_blank text :
  strings.TrimSpace text = "" → parse_line text = Panic (PanicError ErrSyntax).
Proof. intros Hblank. unfold parse_line. by rewrite Hblank. Qed.

(** X12.  A line of the history file that is empty or holds only white
    space makes [readHistory] panic with a syntax error, when the lines
    before it are well formed. *)
Theorem read_aborts_on_blank_line `{sort.Sorter} fs path (h : list Command) content
    (before after : list string) (blank : string) cmds :
  os.Open fs path = Some content →
  bufio.Scanner_lines content = before ++ blank :: after →
  parse_all before = Ok cmds →
  strings.TrimSpace blank = "" →
  readHistory fs path h = Panic (PanicError ErrSyntax).
Proof.
  intros Hopen Hlines Hbefore Hblank.
  rewrite readHistory_unfold, Hopen, Hlines, parse_all_app, Hbefore. simpl.
  by rewrite parse_line_blank.
Qed.

Lemma read_aborts_on_blank_line_witness :
  @readHistory insertion_sorter
    (history_fs "history.tsv" (record "3" "vim" +:+ nl +:+ record "1" "nano"))
    "history.tsv" []
  = Panic (PanicError ErrSyntax).
Proof.
  apply (@read_aborts_on_blank_line insertion_sorter
           (history_fs "history.tsv"
              (record "3" "vim" +:+ nl +:+ record "1" "nano"))
           "history.tsv" []
           (record "3" "vim" +:+ nl +:+ record "1" "nano")
           ["3" +:+ tab +:+ "vim"] ["1" +:+ tab +:+ "nano"] ""
           [mkCommand "vim" 3]);
    vm_compute; reflexivity.
Defined.

(** ** A whole session *)

Lemma read_Ok_ranked `{sort.Sorter} fs path (h h' : list Command) ps :
  readHistory fs path h = Ok (h', ps) →
  ∃ sorted, view h' ps = Some <$> sorted ∧ ranked sorted.
Proof.
  intros Hread. pose proof Hread as Hread'. rewrite readHistory_unfold in Hread.
  destruct (os.Open fs path) as [content|] eqn:Hopen.
  - destruct (parse_all (bufio.Scanner_lines content)) as [cmds|e] eqn:Hparse;
      simpl in Hread; [|done].
    apply parse_all_Ok in Hparse.
    destruct (read_ranked fs path h content cmds Hopen Hparse)
      as (ps' & sorted & Hr & Hv & _ & Hranked).
    rewrite Hr in Hread'. injection Hread' as <- <-. by exists sorted.
  - injection Hread as <- <-. exists []. split; [done|constructor].
Qed.

(** X13.  After a successful [readHistory], the menu that [main] builds
    is the names of the history by descending count, followed by the
    discovered commands that are not in the history, in the order of their
    discovery. *)
Theorem menu_starts_with_ranked_history `{sort.Sorter} fs path (h h' : list Command) ps
    (executables : list string) :
  readHistory fs path h = Ok (h', ps) →
  ∃ sorted,
    view h' ps = Some <$> sorted
    ∧ ranked sorted
    ∧ main_menu h' ps executables
      = Ok ((Name <$> sorted)
            ++ filter (λ x, x ∉ Name <$> sorted) executables).
Proof.
  intros (sorted & Hview & Hranked)%read_Ok_ranked.
  exists sorted. split_and!; [done|done|].
  unfold main_menu. rewrite (historyNameStream_names _ _ _ Hview). simpl.
  by rewrite multiplex_closed_form.
Qed.

Lemma menu_starts_with_ranked_history_witness :
  ∃ sorted,
    view [mkCommand "vim" 3; mkCommand "nano" 1] [0; 1]%nat = Some <$> sorted
    ∧ ranked sorted
    ∧ main_menu [mkCommand "vim" 3; mkCommand "nano" 1] [0; 1]%nat
        ["ls"; "vim"]
      = Ok ((Name <$> sorted) ++ filter (λ x, x ∉ Name <$> sorted) ["ls"; "vim"]).
Proof.
  apply (@menu_starts_with_ranked_history insertion_sorter
           (history_fs "history.tsv" (record "3" "vim" +:+ record "1" "nano"))
           "history.tsv" []).
  vm_compute. reflexivity.
Defined.

(** X14.  When the selected line launches, [main] records it: the next
    [readHistory] returns a command of that name whose count is one more
    than the count of its first entry before, or 1 when it had none. *)
Theorem selection_is_recorded `{sort.Sorter} (LookPath : string → option string)
    fs path (h h2 : list Command) ps cmds (cmd : string) started :
  launchCommand LookPath cmd = Ok started →
  path ∉ fs_denied fs →
  view h ps = Some <$> cmds →
  NoDup ps →
  Forall bumpable cmds →
  storable cmd = true →
  ∃ fs' h' h3 ps' sorted,
    main_selected LookPath fs path h ps cmd = Ok (fs', h')
    ∧ readHistory fs' path h2 = Ok (h3, ps')
    ∧ view h3 ps' = Some <$> sorted
    ∧ mkCommand cmd (calls_of cmd cmds + 1) ∈ sorted.
Proof.
  intros Hlaunch Hcreate Hview Hnodup Hcmds Hcmd.
  destruct (launch_cycle fs path h h2 ps cmds cmd)
    as (fs' & h' & ps' & sorted & Hw & Hr & Hv & Hp & _); try done.
  eexists fs', h', _, ps', sorted. split_and!; try done.
  - unfold main_selected. rewrite Hlaunch. simpl.
    destruct cmd; [done|]. done.
  - rewrite Hp. by apply stored_has_selection.
Qed.

Lemma selection_is_recorded_witness :
  ∃ fs' h' h3 ps' sorted,
    main_selected echo_only (history_fs "history.tsv" "") "history.tsv"
      [mkCommand "echo" 4; mkCommand "vim" 2] [0; 1]%nat "echo" = Ok (fs', h')
    ∧ @readHistory insertion_sorter fs' "history.tsv" [] = Ok (h3, ps')
    ∧ view h3 ps' = Some <$> sorted
    ∧ mkCommand "echo"
        (calls_of "echo" [mkCommand "echo" 4; mkCommand "vim" 2] + 1)
      ∈ sorted.
Proof.
  apply (@selection_is_recorded insertion_sorter echo_only
           (history_fs "history.tsv" "") "history.tsv"
           [mkCommand "echo" 4; mkCommand "vim" 2] [] [0; 1]%nat
           [mkCommand "echo" 4; mkCommand "vim" 2] "echo"
           (mkCmd "/bin/echo" ["/bin/echo"])).
  - vm_compute. reflexivity.
  - simpl. apply not_elem_of_empty.
  - reflexivity.
  - compute_done.
  - apply Forall_cons. split; [split; [vm_compute; reflexivity|simpl; lia]|].
    apply Forall_singleton. split; [vm_compute; reflexivity|simpl; lia].
  - vm_compute. reflexivity.
Defined.

(** ** scanPath: runs without an interrupted append are complete *)

Section scan_runs.
Import ScanPath.

(** X16.  Some run of [scanPath] in which no append is interrupted
    exists, and every such run emits each discovered command once, in
    ascending order. *)
Theorem scanPath_uninterrupted fs path :
  (∃ order,
     scanPath fs path (serial order) = Some (sort.Strings (discovered fs path)))
  ∧ (∀ order out,
       scanPath fs path (serial order) = Some out →
       out ≡ₚ discovered fs path ∧ Sorted String.le out).
Proof.
  split; [apply scanPath_serial_exists|].
  intros order out ->%scanPath_serial. unfold sort.Strings. split.
  - apply merge_sort_Permutation.
  - apply Sorted_merge_sort. apply _.
Qed.

End scan_runs.

Lemma Split_render_crlf (cmds : list Command) :
  Forall (λ c, storable (Name c) = true) cmds →
  strings.Split (render_crlf cmds) LF
  = ((λ c, line_of c +:+ String CR "") <$> cmds) ++ [""].
Proof.
  induction 1 as [|c cmds Hc Hcmds IH]; [done|].
  change (render_crlf (c :: cmds))
    with (line_of c +:+ String CR nl +:+ render_crlf cmds).
  replace (line_of c +:+ String CR nl +:+ render_crlf cmds)
    with ((line_of c +:+ String CR "") +:+ String LF (render_crlf cmds))
    by (by rewrite !string_app_assoc).
  rewrite Split_cut.
  - by rewrite IH.
  - rewrite contains_app, line_of_no_LF by done. reflexivity.
Qed.

Lemma Scanner_lines_render_crlf (cmds : list Command) :
  Forall (λ c, storable (Name c) = true) cmds →
  bufio.Scanner_lines (render_crlf cmds) = line_of <$> cmds.
Proof.
  intros Hnames. unfold bufio.Scanner_lines, bufio.raw_lines.
  rewrite Split_render_crlf by done.
  rewrite reverse_app, reverse_singleton. simpl. rewrite reverse_involutive.
  induction Hnames as [|c cmds Hc Hcmds IH]; [done|]. csimpl.
  assert (bufio.fits (line_of c +:+ String CR "") = true) as ->.
  { pose proof Hc as (_ & _ & _ & Hlen)%storable_inv.
    unfold bufio.fits, line_of. apply Nat.ltb_lt.
    rewrite !length_string_app.
    pose proof (FormatUint_loop_length 20 (Calls c) "") as Hd.
    fold (strconv.FormatUint (Calls c)) in Hd. simpl in Hd.
    change (String.length tab) with 1%nat.
    change (String.length (String CR "")) with 1%nat. lia. }
  csimpl. rewrite IH. f_equal.
  unfold bufio.dropCR. rewrite string_rev_snoc, Ascii.eqb_refl.
  apply string_rev_involutive.
Qed.

(** X17.  A history file with Windows line ends is read without loss:
    [readHistory] returns the commands that the lines hold, by descending
    count, and no name keeps the carriage return. *)
Theorem read_accepts_crlf `{sort.Sorter} fs path (h : list Command) cmds :
  os.Open fs path = Some (render_crlf cmds) →
  Forall readable cmds →
  ∃ ps sorted,
    readHistory fs path h = Ok (h ++ cmds, ps)
    ∧ view (h ++ cmds) ps = Some <$> sorted
    ∧ sorted ≡ₚ cmds
    ∧ ranked sorted.
Proof.
  intros Hopen Hcmds. apply (read_ranked fs path h _ cmds Hopen).
  apply parse_all_Ok. rewrite Scanner_lines_render_crlf.
  - by apply parse_all_lines_of.
  - eapply Forall_impl; [done|]. by intros c [? _].
Qed.

Lemma read_accepts_crlf_witness :
  ∃ ps sorted,
    @readHistory insertion_sorter
      (history_fs "history.tsv"
         (render_crlf [mkCommand "nano" 1; mkCommand "vim" 3]))
      "history.tsv" []
    = Ok ([] ++ [mkCommand "nano" 1; mkCommand "vim" 3], ps)
    ∧ view ([] ++ [mkCommand "nano" 1; mkCommand "vim" 3]) ps = Some <$> sorted
    ∧ sorted ≡ₚ [mkCommand "nano" 1; mkCommand "vim" 3]
    ∧ ranked sorted.
Proof.
  apply (@read_accepts_crlf insertion_sorter
           (history_fs "history.tsv"
              (render_crlf [mkCommand "nano" 1; mkCommand "vim" 3]))
           "history.tsv" [] [mkCommand "nano" 1; mkCommand "vim" 3]).
  - vm_compute. reflexivity.
  - apply Forall_cons. split; [split; [vm_compute; reflexivity|simpl; lia]|].
    apply Forall_singleton. split; [vm_compute; reflexivity|simpl; lia].
Defined.

(** ** From the search path to the menu *)

Lemma fetchExecutables_lists fs dir files f :
  fs_dirs fs !! dir = Some files →
  f ∈ files →
  Z.land (fi_Mode f) mode_0111 ≠ 0%Z →
  fi_Name f ∈ fetchExecutables fs dir.
Proof.
  intros Hdir Hf Hmode. unfold fetchExecutables, ioutil.ReadDir.
  rewrite Hdir, fetch_loop. simpl.
  apply list_elem_of_fmap. exists f. split; [done|].
  by apply list_elem_of_filter.
Qed.

Lemma discovered_lists fs path dir x :
  dir ∈ strings.Split path ":" →
  x ∈ fetchExecutables fs dir →
  x ∈ discovered fs path.
Proof.
  intros Hdir Hx. unfold discovered.
  apply list_elem_of_In, in_concat. exists (fetchExecutables fs dir).
  split; [|by apply list_elem_of_In].
  apply list_elem_of_In, list_elem_of_fmap. by exists dir.
Qed.

Section path_to_menu.
Import ScanPath.

(** X18.  When no append of [scanPath] is interrupted, every file of a
    directory of the search path that has an execute bit is offered in the
    menu. *)
Theorem menu_offers_every_executable fs path order executables
    (h : list Command) history menu dir files f :
  scanPath fs path (serial order) = Some executables →
  main_menu h history executables = Ok menu →
  dir ∈ strings.Split path ":" →
  fs_dirs fs !! dir = Some files →
  f ∈ files →
  Z.land (fi_Mode f) mode_0111 ≠ 0%Z →
  fi_Name f ∈ menu.
Proof.
  intros Hscan Hmenu Hdir Hfiles Hf Hmode.
  apply scanPath_serial in Hscan. subst executables.
  unfold main_menu in Hmenu.
  destruct (historyNameStream h history) as [names|e]; [|done].
  injection Hmenu as <-.
  rewrite multiplex_closed_form, elem_of_app, list_elem_of_filter.
  destruct (decide (fi_Name f ∈ names)); [by left|right]. split; [done|].
  unfold sort.Strings. rewrite merge_sort_Permutation.
  eapply discovered_lists; [done|]. by eapply fetchExecutables_lists.
Qed.

Lemma menu_offers_every_executable_witness :
  fi_Name (mkFileInfo "nano" (7 * 64 + 4 * 8 + 4))
  ∈ ["ls"; "emacs"; "nano"; "vim"].
Proof.
  apply (menu_offers_every_executable two_dirs "d1:d2" [0; 1; 1]%nat
           ["emacs"; "nano"; "vim"] [mkCommand "ls" 1] [0]%nat
           ["ls"; "emacs"; "nano"; "vim"] "d2"
           [mkFileInfo "emacs" (7 * 64 + 4 * 8 + 4);
            mkFileInfo "nano" (7 * 64 + 4 * 8 + 4)]
           (mkFileInfo "nano" (7 * 64 + 4 * 8 + 4))).
  - vm_compute. reflexivity.
  - vm_compute. reflexivity.
  - compute_done.
  - vm_compute. reflexivity.
  - apply list_elem_of_further, list_elem_of_here.
  - vm_compute. discriminate.
Defined.

End path_to_menu.
